(** * MachO-Kit core: checked arithmetic, ranges, byte order, type runtime

    A shallow embedding of [libMachO/Core/core.c].  Unsigned 64-bit
    quantities are integers of [Z] whose wrap-around is written out with
    [wrap64]; out-parameters are cells passed in and handed back; the
    descriptor registry is a finite map from addresses to vtables; byte
    buffers live in a flat memory indexed by address. *)

From Stdlib Require Import ZArith Lia Bool Strings.Byte.
From stdpp Require Import base option list gmap strings.

Local Open Scope Z_scope.

(** ** Machine integers *)

Definition UINT16_MAX : Z := 2 ^ 16 - 1.
Definition UINT32_MAX : Z := 2 ^ 32 - 1.
Definition UINT64_MAX : Z := 2 ^ 64 - 1.

(** Arithmetic of [uint64_t]: every result is reduced modulo [2^64]. *)
Definition wrap64 (x : Z) : Z := x mod 2 ^ 64.

(** Modelled from the spec: [core.h] is not among the sources.  Address,
    Size and Offset are unsigned integers of the same width (64 bits),
    each with its maximum the largest value of the type. *)
Definition mk_vm_address_t : Type := Z.
Definition mk_vm_size_t : Type := Z.
Definition mk_vm_offset_t : Type := Z.
Definition MK_VM_ADDRESS_MAX : Z := UINT64_MAX.
Definition MK_VM_SIZE_MAX : Z := UINT64_MAX.

(** A value of one of the three 64-bit types. *)
Definition is_u64 (x : Z) : Prop := 0 <= x <= UINT64_MAX.

(** ** Errors *)

(** Modelled from the spec: the enumeration [mk_error_t] of [core.h], one
    constructor per error kind that [mk_error_string] matches on.
    [MK_ESUCCESS] is the only kind that tests false in a condition. *)
Inductive mk_error_t : Type :=
  | MK_ESUCCESS
  | MK_ECLIENT_ERROR
  | MK_ECLIENT_INVALID_RESULT
  | MK_EINTERNAL_ERROR
  | MK_EINVAL
  | MK_EINVALID_DATA
  | MK_ENOT_FOUND
  | MK_EUNAVAILABLE
  | MK_EOUT_OF_RANGE
  | MK_EOVERFLOW
  | MK_EUNDERFLOW
  | MK_EBAD_ACCESS.

#[global] Instance mk_error_eq_dec : EqDecision mk_error_t.
Proof. solve_decision. Defined.

(** The truth value of [if (err)]. *)
Definition is_error (err : mk_error_t) : bool :=
  match err with
  | MK_ESUCCESS => false
  | _ => true
  end.

(** ** Out-parameters

    A parameter [mk_vm_address_t *result] is a cell: [None] is the NULL
    pointer, [Some v] a valid pointer whose target currently holds [v].
    A function that takes such a pointer returns the cell after the call. *)
Definition out_cell : Type := option Z.

(** [if (result) *result = v;] *)
Definition store_out (result : out_cell) (v : Z) : out_cell :=
  match result with
  | Some _ => Some v
  | None => None
  end.

(** ** Type safe operations *)

Definition mk_vm_address_apply_offset
    (addr : mk_vm_address_t) (offset : mk_vm_offset_t) (result : out_cell)
    : mk_error_t * out_cell :=
  if wrap64 (MK_VM_ADDRESS_MAX - offset) <? addr then (MK_EOVERFLOW, result)
  else (MK_ESUCCESS, store_out result (wrap64 (addr + offset))).

Definition mk_vm_address_add
    (addr1 addr2 : mk_vm_address_t) (result : out_cell)
    : mk_error_t * out_cell :=
  if wrap64 (MK_VM_ADDRESS_MAX - addr2) <? addr1 then (MK_EOVERFLOW, result)
  else (MK_ESUCCESS, store_out result (wrap64 (addr1 + addr2))).

Definition mk_vm_address_substract
    (left right : mk_vm_address_t) (result : out_cell)
    : mk_error_t * out_cell :=
  if right >? left then (MK_EUNDERFLOW, result)
  else (MK_ESUCCESS, store_out result (wrap64 (left - right))).

Definition mk_vm_address_check_length
    (addr : mk_vm_address_t) (length : mk_vm_size_t) : mk_error_t :=
  if wrap64 (MK_VM_SIZE_MAX - length) <? addr then MK_EOVERFLOW
  else MK_ESUCCESS.

(** ** Ranges *)

Record mk_vm_range_t : Type := {
  location : mk_vm_address_t;
  length : mk_vm_size_t
}.

Definition mk_vm_range_make
    (location : mk_vm_address_t) (length : mk_vm_size_t) : mk_vm_range_t :=
  {| location := location; length := length |}.

(** Both fields of a range hold 64-bit values. *)
Definition range_wf (r : mk_vm_range_t) : Prop :=
  is_u64 (location r) /\ is_u64 (length r).

(** The mathematical end of a range, one past its last address. *)
Definition range_end (r : mk_vm_range_t) : Z := location r + length r.

(** [location + length] overflows when the sum is not representable. *)
Definition range_overflows (r : mk_vm_range_t) : Prop :=
  range_end r > MK_VM_SIZE_MAX.

(** The local [address] is overwritten through [&address] by the call to
    [mk_vm_address_apply_offset]; the comparison reads the updated cell. *)
Definition mk_vm_range_contains_address
    (range : mk_vm_range_t) (offset : mk_vm_offset_t)
    (address : mk_vm_address_t) : mk_error_t :=
  let '(err, cell) := mk_vm_address_apply_offset address offset (Some address) in
  if is_error err then err
  else
    let address := default address cell in
    if wrap64 (MK_VM_SIZE_MAX - length range) <? location range
    then MK_EOVERFLOW
    else if (address <? location range)
            || (address >=? wrap64 (location range + length range))
    then MK_ENOT_FOUND
    else MK_ESUCCESS.

Definition mk_vm_range_contains_range
    (outer_range inner_range : mk_vm_range_t) (partial : bool) : mk_error_t :=
  if wrap64 (MK_VM_SIZE_MAX - length outer_range) <? location outer_range
  then MK_EOVERFLOW
  else if wrap64 (MK_VM_SIZE_MAX - length inner_range) <? location inner_range
  then MK_EOVERFLOW
  else if partial then
    if (location inner_range <? location outer_range)
       && (wrap64 (location inner_range + length inner_range)
             <? location outer_range)
    then MK_ENOT_FOUND
    else if location inner_range
              >? wrap64 (location outer_range + length outer_range)
    then MK_ENOT_FOUND
    else MK_ESUCCESS
  else
    if location inner_range <? location outer_range
    then MK_ENOT_FOUND
    else if wrap64 (location inner_range + length inner_range)
              >? wrap64 (location outer_range + length outer_range)
    then MK_ENOT_FOUND
    else MK_ESUCCESS.

(** ** Byte order *)

(** Modelled from the spec: [OSSwapInt16], [OSSwapInt32] and [OSSwapInt64]
    come from the platform header [libkern/OSByteOrder.h], which is not
    among the sources.  The swapped byte order is byte reversal; it is
    written here with the masks and shifts of the header's constant
    swaps, on an argument that is a value of the operand type. *)
Definition OSSwapInt16 (x : Z) : Z :=
  Z.lor (Z.shiftr (Z.land x 0xff00) 8)
        (Z.shiftl (Z.land x 0x00ff) 8).

Definition OSSwapInt32 (x : Z) : Z :=
  Z.lor (Z.lor (Z.lor
    (Z.shiftr (Z.land x 0xff000000) 24)
    (Z.shiftr (Z.land x 0x00ff0000) 8))
    (Z.shiftl (Z.land x 0x0000ff00) 8))
    (Z.shiftl (Z.land x 0x000000ff) 24).

Definition OSSwapInt64 (x : Z) : Z :=
  Z.lor (Z.lor (Z.lor (Z.lor (Z.lor (Z.lor (Z.lor
    (Z.shiftr (Z.land x 0xff00000000000000) 56)
    (Z.shiftr (Z.land x 0x00ff000000000000) 40))
    (Z.shiftr (Z.land x 0x0000ff0000000000) 24))
    (Z.shiftr (Z.land x 0x000000ff00000000) 8))
    (Z.shiftl (Z.land x 0x00000000ff000000) 8))
    (Z.shiftl (Z.land x 0x0000000000ff0000) 24))
    (Z.shiftl (Z.land x 0x000000000000ff00) 40))
    (Z.shiftl (Z.land x 0x00000000000000ff) 56).

Definition _mk_swap16 (input : Z) : Z := OSSwapInt16 input.
Definition _mk_nswap16 (input : Z) : Z := input.
Definition _mk_swap32 (input : Z) : Z := OSSwapInt32 input.
Definition _mk_nswap32 (input : Z) : Z := input.
Definition _mk_swap64 (input : Z) : Z := OSSwapInt64 input.
Definition _mk_nswap64 (input : Z) : Z := input.

(** Byte memory is flat: a pointer [uint8_t *] is the index of a byte,
    [input[i]] is the byte at [input + i].  A read or write outside the
    memory has no defined behaviour in C; here it yields [None]. *)
Abbreviation memory := (list Byte.byte).

(** The body of the [for] loop of [_mk_swap], iterated.  The guard
    [i < length/2] is tested at each turn; [fuel] bounds the number of
    turns.  Under the guard [length - i - 1] does not wrap. *)
Fixpoint _mk_swap_loop
    (fuel : nat) (mem : memory) (input length i : nat) : option memory :=
  match fuel with
  | O => None
  | S fuel' =>
      if (i <? length / 2)%nat then
        match mem !! (input + i)%nat,
              mem !! (input + (length - i - 1))%nat with
        | Some temp, Some other =>
            let mem1 := <[(input + i)%nat := other]> mem in
            let mem2 := <[(input + (length - i - 1))%nat := temp]> mem1 in
            _mk_swap_loop fuel' mem2 input length (S i)
        | _, _ => None
        end
      else Some mem
  end.

(** Returns the pointer handed back together with the memory after the
    call. *)
Definition _mk_swap (mem : memory) (input length : nat)
    : option (nat * memory) :=
  match _mk_swap_loop (S (length / 2)) mem input length 0 with
  | Some mem' => Some (input, mem')
  | None => None
  end.

Definition _mk_nswap (mem : memory) (input length : nat)
    : option (nat * memory) :=
  Some (input, mem).

Record mk_byteorder_t : Type := {
  swap16 : Z -> Z;
  swap32 : Z -> Z;
  swap64 : Z -> Z;
  swap : memory -> nat -> nat -> option (nat * memory)
}.

Definition mk_byteorder_direct : mk_byteorder_t := {|
  swap16 := _mk_nswap16;
  swap32 := _mk_nswap32;
  swap64 := _mk_nswap64;
  swap := _mk_nswap
|}.

Definition mk_byteorder_swapped : mk_byteorder_t := {|
  swap16 := _mk_swap16;
  swap32 := _mk_swap32;
  swap64 := _mk_swap64;
  swap := _mk_swap
|}.

(** The bytes of the span [input .. input + length - 1], when the whole
    span lies inside the memory. *)
Definition read_span (mem : memory) (input length : nat)
    : option (list Byte.byte) :=
  if (input + length <=? List.length mem)%nat
  then Some (take length (drop input mem))
  else None.

(** The memory in which the span [input .. input + length - 1] is
    reversed and every other byte is kept. *)
Definition span_reversed (mem : memory) (input length : nat) : memory :=
  take input mem
  ++ reverse (take length (drop input mem))
  ++ drop (input + length)%nat mem.

(** The address whose byte [input[j - input]] trades places with. *)
Definition mirror (input length j : nat) : nat :=
  (input + (length - 1 - (j - input)))%nat.

(** The memory after [i] turns of the loop of [_mk_swap] started on
    [mem0]: the first [i] and the last [i] bytes of the span have traded
    places, everything else is as in [mem0]. *)
Definition swapped_ends
    (mem0 : memory) (input length i : nat) (m : memory) : Prop :=
  List.length m = List.length mem0 /\
  forall j : nat,
    m !! j =
    if decide ((input <= j < input + length)%nat
               /\ ((j - input < i)%nat \/ (length - i <= j - input)%nat))
    then mem0 !! mirror input length j else mem0 !! j.

(** ** Classes and runtime *)

(** Pointers to descriptors and handles are addresses; [NULL] is 0. *)
Definition ptr : Type := Z.
Definition NULL : ptr := 0.

(** A slot of the vtable holds the symbol of the function it points to,
    or nothing when the pointer is NULL. *)
Record _mk_type_vtable : Type := {
  super : ptr;
  name : option string;
  get_context : option string;
  equal : option string;
  copy_description : option string
}.

Definition _mk_type_class : _mk_type_vtable := {|
  super := NULL;
  name := Some EmptyString;
  get_context := Some "__mk_type_get_context"%string;
  equal := Some "__mk_type_equal"%string;
  copy_description := Some "__mk_type_copy_description"%string
|}.

(** The part of a handle the runtime reads: its vtable pointer. *)
Record _mk_runtime_base_t : Type := {
  vtable : ptr
}.

(** The descriptors and the handles that are live, by address. *)
Record runtime : Type := {
  vtables : gmap Z _mk_type_vtable;
  objects : gmap Z _mk_runtime_base_t
}.

Definition mk_type_is (rt : runtime) (mk : ptr) (type : Z) : option bool :=
  match objects rt !! mk with
  | Some base => Some (vtable base =? type)
  | None => None
  end.

(** The [while] loop of [mk_type_is_kind_of]; [None] when the fuel runs
    out or [vtable->super] reads an address that holds no descriptor. *)
Fixpoint kind_of_loop
    (vts : gmap Z _mk_type_vtable) (fuel : nat) (vt : ptr) (type : Z)
    : option bool :=
  match fuel with
  | O => None
  | S fuel' =>
      if vt =? NULL then Some false
      else if vt =? type then Some true
      else match vts !! vt with
           | Some v => kind_of_loop vts fuel' (super v) type
           | None => None
           end
  end.

Definition mk_type_is_kind_of
    (rt : runtime) (fuel : nat) (mk : ptr) (type : Z) : option bool :=
  match objects rt !! mk with
  | Some base => kind_of_loop (vtables rt) fuel (vtable base) type
  | None => None
  end.

(** [ends_at_root vts root n d]: following [super] from the descriptor at
    [d] passes through [n] links, over descriptors only, and arrives at
    [root], where [_mk_type_class] lives. *)
Fixpoint ends_at_root
    (vts : gmap Z _mk_type_vtable) (root : ptr) (n : nat) (d : ptr) : bool :=
  match n with
  | O =>
      (d =? root) && negb (root =? NULL) &&
      match vts !! root with
      | Some v => super v =? NULL
      | None => false
      end
  | S n' =>
      negb (d =? NULL) &&
      match vts !! d with
      | Some v => negb (super v =? NULL) && ends_at_root vts root n' (super v)
      | None => false
      end
  end.

(** ** Error strings *)

(** The text that the [switch] of [mk_error_string] returns under the
    case label of each kind. *)
Definition error_text (k : mk_error_t) : string :=
  match k with
  | MK_ESUCCESS => "SUCCESS"
  | MK_ECLIENT_ERROR => "CLIENT ERROR"
  | MK_ECLIENT_INVALID_RESULT => "INVALID CLIENT RESULT"
  | MK_EINTERNAL_ERROR => "INTERNAL ERROR"
  | MK_EINVAL => "BAD INPUT"
  | MK_EINVALID_DATA => "INVALID DATA"
  | MK_ENOT_FOUND => "NOT FOUND"
  | MK_EUNAVAILABLE => "UNAVAILABLE"
  | MK_EOUT_OF_RANGE => "OUT OF RANGE"
  | MK_EOVERFLOW => "OVERFLOW"
  | MK_EUNDERFLOW => "UNDERFLOW"
  | MK_EBAD_ACCESS => "BAD ACCESS"
  end%string.

(** [mk_error_string] works on the integer value of an error.  The
    numbering of the kinds and the value of the flag [MK_EMEMORY_ERROR]
    are fixed in [core.h], which is not among the sources: they are the
    parameters [code] and [MK_EMEMORY_ERROR].  The [switch] is the chain
    of comparisons in the order of its case labels; [~] is [Z.lnot],
    which agrees with the complement of C on the bits of an [int]. *)
Definition mk_error_string
    (code : mk_error_t -> Z) (MK_EMEMORY_ERROR : Z) (error : Z) : string :=
  let e := Z.land error (Z.lnot MK_EMEMORY_ERROR) in
  if e =? code MK_ESUCCESS then "SUCCESS"
  else if e =? code MK_ECLIENT_ERROR then "CLIENT ERROR"
  else if e =? code MK_ECLIENT_INVALID_RESULT then "INVALID CLIENT RESULT"
  else if e =? code MK_EINTERNAL_ERROR then "INTERNAL ERROR"
  else if e =? code MK_EINVAL then "BAD INPUT"
  else if e =? code MK_EINVALID_DATA then "INVALID DATA"
  else if e =? code MK_ENOT_FOUND then "NOT FOUND"
  else if e =? code MK_EUNAVAILABLE then "UNAVAILABLE"
  else if e =? code MK_EOUT_OF_RANGE then "OUT OF RANGE"
  else if e =? code MK_EOVERFLOW then "OVERFLOW"
  else if e =? code MK_EUNDERFLOW then "UNDERFLOW"
  else if e =? code MK_EBAD_ACCESS then "BAD ACCESS"
  else EmptyString.

(** One numbering that a header can fix: the kinds counted from zero in
    the order of the case labels, the flag in bit 31. *)
Definition ordinal_code (k : mk_error_t) : Z :=
  match k with
  | MK_ESUCCESS => 0
  | MK_ECLIENT_ERROR => 1
  | MK_ECLIENT_INVALID_RESULT => 2
  | MK_EINTERNAL_ERROR => 3
  | MK_EINVAL => 4
  | MK_EINVALID_DATA => 5
  | MK_ENOT_FOUND => 6
  | MK_EUNAVAILABLE => 7
  | MK_EOUT_OF_RANGE => 8
  | MK_EOVERFLOW => 9
  | MK_EUNDERFLOW => 10
  | MK_EBAD_ACCESS => 11
  end.

(** ** Dispatch through the vtable *)

(** Reading [vtable->field]: the NULL pointer and an address that holds
    no descriptor cannot be read. *)
Definition load_vtable
    (vts : gmap Z _mk_type_vtable) (p : ptr) : option _mk_type_vtable :=
  if p =? NULL then None else vts !! p.

(** The loop [while (vtable->slot == NULL) vtable = vtable->super;] that
    [mk_type_name], [mk_type_get_context], [mk_type_equal] and
    [mk_type_copy_description] each run on their own slot, followed by
    the read of the slot.  [None] when the fuel runs out or a pointer
    that cannot be read is dereferenced. *)
Fixpoint slot_loop {A : Type}
    (slot : _mk_type_vtable -> option A)
    (vts : gmap Z _mk_type_vtable) (fuel : nat) (vt : ptr) : option A :=
  match fuel with
  | O => None
  | S fuel' =>
      match load_vtable vts vt with
      | Some v =>
          match slot v with
          | Some x => Some x
          | None => slot_loop slot vts fuel' (super v)
          end
      | None => None
      end
  end.

Definition mk_type_name (rt : runtime) (fuel : nat) (mk : ptr)
    : option string :=
  match objects rt !! mk with
  | Some base => slot_loop name (vtables rt) fuel (vtable base)
  | None => None
  end.

(** The two implementations of the root class that compute a value. *)
Definition __mk_type_get_context (self : ptr) : ptr := NULL.

Definition __mk_type_equal (self other : ptr) : bool := self =? other.

(** The functions that the symbols stored in the slots stand for. *)
Record mk_type_impls : Type := {
  get_context_impl : string -> option (ptr -> ptr);
  equal_impl : string -> option (ptr -> ptr -> bool)
}.

(** The symbols that [core.c] defines. *)
Definition core_impls : mk_type_impls := {|
  get_context_impl := fun s =>
    if String.eqb s "__mk_type_get_context"
    then Some __mk_type_get_context else None;
  equal_impl := fun s =>
    if String.eqb s "__mk_type_equal"
    then Some __mk_type_equal else None
|}.

Definition mk_type_get_context
    (impls : mk_type_impls) (rt : runtime) (fuel : nat) (mk : ptr)
    : option ptr :=
  match objects rt !! mk with
  | Some base =>
      match slot_loop get_context (vtables rt) fuel (vtable base) with
      | Some symbol =>
          match get_context_impl impls symbol with
          | Some f => Some (f mk)
          | None => None
          end
      | None => None
      end
  | None => None
  end.

Definition mk_type_equal
    (impls : mk_type_impls) (rt : runtime) (fuel : nat) (mk1 mk2 : ptr)
    : option bool :=
  match objects rt !! mk1 with
  | Some base =>
      match slot_loop equal (vtables rt) fuel (vtable base) with
      | Some symbol =>
          match equal_impl impls symbol with
          | Some f => Some (f mk1 mk2)
          | None => None
          end
      | None => None
      end
  | None => None
  end.

(** The descriptor reached from [d] after [j] reads of [super]. *)
Fixpoint nth_super
    (vts : gmap Z _mk_type_vtable) (j : nat) (d : ptr) : option ptr :=
  match j with
  | O => Some d
  | S j' =>
      match load_vtable vts d with
      | Some v => nth_super vts j' (super v)
      | None => None
      end
  end.

(** The first [n] descriptors from [d] upwards leave the slot unset. *)
Fixpoint inherits_slot {A : Type}
    (slot : _mk_type_vtable -> option A)
    (vts : gmap Z _mk_type_vtable) (n : nat) (d : ptr) : bool :=
  match n with
  | O => true
  | S n' =>
      match load_vtable vts d with
      | Some v =>
          match slot v with
          | Some _ => false
          | None => inherits_slot slot vts n' (super v)
          end
      | None => false
      end
  end.

(** A registry with a cycle: the descriptor at [0x5000] is its own
    [super]. *)
Definition looping_runtime : runtime := {|
  vtables := <[0x5000 := {| super := 0x5000; name := None;
                            get_context := None; equal := None;
                            copy_description := None |}]> ∅;
  objects := <[0x9000 := {| vtable := 0x5000 |}]> ∅
|}.

(** A small registry: the root class at [0x1000], two classes derived
    from it at [0x2000] and [0x3000], one derived from the first of these
    at [0x4000], and two handles. *)
Definition sample_vtables : gmap Z _mk_type_vtable :=
  <[0x1000 := _mk_type_class]>
  (<[0x2000 := {| super := 0x1000; name := Some "load command"%string;
                  get_context := None; equal := None;
                  copy_description := None |}]>
  (<[0x3000 := {| super := 0x1000; name := Some "segment"%string;
                  get_context := None; equal := None;
                  copy_description := None |}]>
  (<[0x4000 := {| super := 0x2000; name := None;
                  get_context := None; equal := None;
                  copy_description := None |}]> ∅))).

Definition sample_runtime : runtime := {|
  vtables := sample_vtables;
  objects := <[0x9000 := {| vtable := 0x2000 |}]>
             (<[0x9100 := {| vtable := 0x4000 |}]> ∅)
|}.

(** * Properties *)

(** ** Checked arithmetic *)

Lemma wrap64_small (x : Z) : 0 <= x <= UINT64_MAX -> wrap64 x = x.
Proof.
  unfold wrap64, UINT64_MAX. intros H. apply Z.mod_small. lia.
Qed.

Lemma UINT64_MAX_val : UINT64_MAX = 18446744073709551615.
Proof. reflexivity. Qed.

(** Unfolds the 64-bit bounds down to the numeral. *)
Ltac u64_bounds :=
  unfold range_overflows, range_end, range_wf, is_u64,
    MK_VM_ADDRESS_MAX, MK_VM_SIZE_MAX in *;
  rewrite ?UINT64_MAX_val in *.

(** The guard [MAX - y < x] of the checked additions, read on integers. *)
Lemma overflow_guard (x y : Z) :
  is_u64 x -> is_u64 y ->
  (wrap64 (UINT64_MAX - y) <? x) = (UINT64_MAX <? x + y).
Proof.
  intros Hx Hy. unfold is_u64 in *.
  rewrite wrap64_small by lia.
  destruct (Z.ltb_spec (UINT64_MAX - y) x),
           (Z.ltb_spec UINT64_MAX (x + y)); lia.
Qed.

(** C1. [mk_vm_address_apply_offset] succeeds exactly when the sum of the
    address and the offset is at most [MK_VM_ADDRESS_MAX]; on success the
    value stored through a non-NULL result pointer is that exact sum. *)
Theorem mk_vm_address_apply_offset_spec
    (a o : Z) (result : out_cell) :
  is_u64 a -> is_u64 o ->
  (fst (mk_vm_address_apply_offset a o result) = MK_ESUCCESS
     <-> a + o <= MK_VM_ADDRESS_MAX) /\
  (fst (mk_vm_address_apply_offset a o result) = MK_ESUCCESS ->
     forall old, result = Some old ->
       snd (mk_vm_address_apply_offset a o result) = Some (a + o)).
Proof.
  intros Ha Ho. unfold mk_vm_address_apply_offset, MK_VM_ADDRESS_MAX.
  rewrite overflow_guard by assumption.
  destruct (Z.ltb_spec UINT64_MAX (a + o)) as [Hov | Hfit]; simpl.
  - split; [split; [discriminate | lia] | discriminate].
  - split; [split; [lia | reflexivity] |].
    intros _ old ->. simpl. f_equal. apply wrap64_small.
    unfold is_u64 in *. lia.
Qed.

Lemma mk_vm_address_apply_offset_spec_witness :
  is_u64 4096 /\ is_u64 64 /\
  ((fst (mk_vm_address_apply_offset 4096 64 (Some 0)) = MK_ESUCCESS
      <-> 4096 + 64 <= MK_VM_ADDRESS_MAX) /\
   (fst (mk_vm_address_apply_offset 4096 64 (Some 0)) = MK_ESUCCESS ->
      forall old, Some 0 = Some old ->
        snd (mk_vm_address_apply_offset 4096 64 (Some 0))
        = Some (4096 + 64))).
Proof.
  assert (H1 : is_u64 4096) by (unfold is_u64, UINT64_MAX; lia).
  assert (H2 : is_u64 64) by (unfold is_u64, UINT64_MAX; lia).
  split; [exact H1 | split; [exact H2 |]].
  exact (mk_vm_address_apply_offset_spec 4096 64 (Some 0) H1 H2).
Defined.

(** C6. [mk_vm_address_substract] fails with Underflow exactly when the
    right operand exceeds the left one, and otherwise stores the exact
    difference; [mk_vm_address_add] of that difference and the right
    operand then succeeds and stores the left operand back. *)
Theorem mk_vm_address_substract_spec (a b : Z) (result : out_cell) :
  is_u64 a -> is_u64 b ->
  (fst (mk_vm_address_substract a b result) = MK_EUNDERFLOW <-> b > a) /\
  (~ b > a ->
     fst (mk_vm_address_substract a b result) = MK_ESUCCESS /\
     forall old, result = Some old ->
       snd (mk_vm_address_substract a b result) = Some (a - b)) /\
  (forall old d,
     mk_vm_address_substract a b (Some old) = (MK_ESUCCESS, Some d) ->
     forall old', mk_vm_address_add d b (Some old') = (MK_ESUCCESS, Some a)).
Proof.
  intros Ha Hb. unfold mk_vm_address_substract.
  destruct (Z.gtb_spec b a) as [Hgt | Hle]; simpl.
  - split; [split; [lia | reflexivity] |].
    split; [lia | discriminate].
  - assert (Hd : wrap64 (a - b) = a - b)
      by (apply wrap64_small; unfold is_u64 in *; lia).
    split; [split; [discriminate | lia] |].
    split.
    + intros _. split; [reflexivity |]. intros old ->. simpl. now rewrite Hd.
    + intros old d [= <-] old'. rewrite Hd.
      unfold mk_vm_address_add, MK_VM_ADDRESS_MAX.
      rewrite overflow_guard
        by (try assumption; unfold is_u64 in *; lia).
      replace (a - b + b) with a by lia.
      destruct (Z.ltb_spec UINT64_MAX a) as [Hbad | _].
      * unfold is_u64 in Ha. lia.
      * simpl. now rewrite wrap64_small by exact Ha.
Qed.

Lemma mk_vm_address_substract_spec_witness :
  is_u64 100 /\ is_u64 58 /\
  mk_vm_address_substract 100 58 (Some 0) = (MK_ESUCCESS, Some 42) /\
  mk_vm_address_add 42 58 (Some 7) = (MK_ESUCCESS, Some 100).
Proof.
  assert (H1 : is_u64 100) by (unfold is_u64, UINT64_MAX; lia).
  assert (H2 : is_u64 58) by (unfold is_u64, UINT64_MAX; lia).
  split; [exact H1 | split; [exact H2 |]].
  split; [reflexivity |].
  exact (proj2 (proj2 (mk_vm_address_substract_spec 100 58 (Some 0) H1 H2))
           0 42 eq_refl 7).
Defined.

(** ** Ranges *)

(** The overflow test of a range, read on integers. *)
Lemma range_guard (r : mk_vm_range_t) :
  range_wf r ->
  (wrap64 (MK_VM_SIZE_MAX - length r) <? location r)
  = (MK_VM_SIZE_MAX <? range_end r).
Proof.
  intros [Hl Hn]. unfold MK_VM_SIZE_MAX, range_end.
  now apply overflow_guard.
Qed.

Lemma range_guard_fits (r : mk_vm_range_t) :
  range_wf r -> ~ range_overflows r ->
  (wrap64 (MK_VM_SIZE_MAX - length r) <? location r) = false.
Proof.
  intros Hwf Hfit. rewrite range_guard by assumption.
  unfold range_overflows in Hfit. apply Z.ltb_ge. lia.
Qed.

(** The end of a range that does not overflow is computed exactly. *)
Lemma range_end_exact (r : mk_vm_range_t) :
  range_wf r -> ~ range_overflows r ->
  wrap64 (location r + length r) = range_end r.
Proof.
  intros [Hl Hn] Hfit. unfold range_end. apply wrap64_small.
  u64_bounds. lia.
Qed.

(** Splits on every integer comparison left in the goal. *)
Ltac split_comparisons :=
  repeat match goal with
         | |- context [?x <? ?y] => destruct (Z.ltb_spec x y)
         | |- context [?x >? ?y] => destruct (Z.gtb_spec x y)
         | |- context [?x >=? ?y] => destruct (Z.geb_spec x y)
         end;
  simpl.

(** What [mk_vm_range_contains_range] computes on two ranges that pass
    its overflow tests. *)
Lemma contains_range_fits (outer inner : mk_vm_range_t) (partial : bool) :
  range_wf outer -> range_wf inner ->
  ~ range_overflows outer -> ~ range_overflows inner ->
  mk_vm_range_contains_range outer inner partial =
  if partial then
    if (location inner <? location outer)
       && (range_end inner <? location outer)
    then MK_ENOT_FOUND
    else if location inner >? range_end outer then MK_ENOT_FOUND
    else MK_ESUCCESS
  else
    if location inner <? location outer then MK_ENOT_FOUND
    else if range_end inner >? range_end outer then MK_ENOT_FOUND
    else MK_ESUCCESS.
Proof.
  intros Ho Hi Hfo Hfi. unfold mk_vm_range_contains_range.
  rewrite !range_guard_fits by assumption.
  now rewrite !range_end_exact by assumption.
Qed.

(** C2. In strict mode, on ranges that do not overflow,
    [mk_vm_range_contains_range] succeeds exactly when the inner range
    starts at or after the outer one and ends at or before it, and
    returns NotFound otherwise: an inner range one longer than the outer
    is not found, an exact fit is accepted. *)
Theorem contains_range_strict_spec (outer inner : mk_vm_range_t) :
  range_wf outer -> range_wf inner ->
  ~ range_overflows outer -> ~ range_overflows inner ->
  (mk_vm_range_contains_range outer inner false = MK_ESUCCESS
     <-> location inner >= location outer
         /\ location inner + length inner
            <= location outer + length outer) /\
  (mk_vm_range_contains_range outer inner false = MK_ESUCCESS
     \/ mk_vm_range_contains_range outer inner false = MK_ENOT_FOUND) /\
  mk_vm_range_contains_range
    (mk_vm_range_make 0 10) (mk_vm_range_make 0 11) false = MK_ENOT_FOUND /\
  mk_vm_range_contains_range
    (mk_vm_range_make 0 10) (mk_vm_range_make 0 10) false = MK_ESUCCESS.
Proof.
  intros Ho Hi Hfo Hfi.
  rewrite contains_range_fits by assumption. unfold range_end.
  split; [| split; [| split; reflexivity]].
  - split_comparisons; split; try discriminate; try reflexivity; lia.
  - split_comparisons; auto.
Qed.

Lemma contains_range_strict_spec_witness :
  range_wf (mk_vm_range_make 16 32) /\
  range_wf (mk_vm_range_make 20 8) /\
  ~ range_overflows (mk_vm_range_make 16 32) /\
  ~ range_overflows (mk_vm_range_make 20 8) /\
  mk_vm_range_contains_range
    (mk_vm_range_make 16 32) (mk_vm_range_make 20 8) false = MK_ESUCCESS.
Proof.
  assert (H1 : range_wf (mk_vm_range_make 16 32))
    by (unfold range_wf, is_u64, UINT64_MAX; simpl; lia).
  assert (H2 : range_wf (mk_vm_range_make 20 8))
    by (unfold range_wf, is_u64, UINT64_MAX; simpl; lia).
  assert (H3 : ~ range_overflows (mk_vm_range_make 16 32))
    by (unfold range_overflows, range_end, MK_VM_SIZE_MAX, UINT64_MAX;
        simpl; lia).
  assert (H4 : ~ range_overflows (mk_vm_range_make 20 8))
    by (unfold range_overflows, range_end, MK_VM_SIZE_MAX, UINT64_MAX;
        simpl; lia).
  repeat (split; [assumption |]).
  apply (proj1 (contains_range_strict_spec _ _ H1 H2 H3 H4)).
  simpl. lia.
Defined.

(** C3. In partial mode, on ranges that do not overflow,
    [mk_vm_range_contains_range] returns NotFound exactly when the inner
    range starts and ends strictly before the outer one starts, or starts
    strictly after the outer one ends, and succeeds in every other case:
    an inner range that starts inside and runs far past the end is
    accepted, one that lies strictly after the outer range is not
    found. *)
Theorem contains_range_partial_spec (outer inner : mk_vm_range_t) :
  range_wf outer -> range_wf inner ->
  ~ range_overflows outer -> ~ range_overflows inner ->
  (mk_vm_range_contains_range outer inner true = MK_ENOT_FOUND
     <-> (location inner < location outer
          /\ location inner + length inner < location outer)
         \/ location inner > location outer + length outer) /\
  (mk_vm_range_contains_range outer inner true <> MK_ENOT_FOUND ->
     mk_vm_range_contains_range outer inner true = MK_ESUCCESS) /\
  mk_vm_range_contains_range
    (mk_vm_range_make 0 10) (mk_vm_range_make 5 100) true = MK_ESUCCESS /\
  mk_vm_range_contains_range
    (mk_vm_range_make 0 10) (mk_vm_range_make 20 5) true = MK_ENOT_FOUND.
Proof.
  intros Ho Hi Hfo Hfi.
  rewrite contains_range_fits by assumption. unfold range_end.
  split; [| split; [| split; reflexivity]].
  - split_comparisons; split; try discriminate; try reflexivity; lia.
  - split_comparisons; congruence.
Qed.

Lemma contains_range_partial_spec_witness :
  range_wf (mk_vm_range_make 100 10) /\
  range_wf (mk_vm_range_make 50 20) /\
  ~ range_overflows (mk_vm_range_make 100 10) /\
  ~ range_overflows (mk_vm_range_make 50 20) /\
  mk_vm_range_contains_range
    (mk_vm_range_make 100 10) (mk_vm_range_make 50 20) true = MK_ENOT_FOUND.
Proof.
  assert (H1 : range_wf (mk_vm_range_make 100 10))
    by (unfold range_wf, is_u64, UINT64_MAX; simpl; lia).
  assert (H2 : range_wf (mk_vm_range_make 50 20))
    by (unfold range_wf, is_u64, UINT64_MAX; simpl; lia).
  assert (H3 : ~ range_overflows (mk_vm_range_make 100 10))
    by (unfold range_overflows, range_end, MK_VM_SIZE_MAX, UINT64_MAX;
        simpl; lia).
  assert (H4 : ~ range_overflows (mk_vm_range_make 50 20))
    by (unfold range_overflows, range_end, MK_VM_SIZE_MAX, UINT64_MAX;
        simpl; lia).
  repeat (split; [assumption |]).
  apply (proj1 (contains_range_partial_spec _ _ H1 H2 H3 H4)).
  simpl. lia.
Defined.

(** What [mk_vm_range_contains_address] computes when neither the sum of
    the address and the offset nor the end of the range overflows. *)
Lemma contains_address_fits (r : mk_vm_range_t) (o a : Z) :
  range_wf r -> is_u64 o -> is_u64 a ->
  a + o <= MK_VM_ADDRESS_MAX -> ~ range_overflows r ->
  mk_vm_range_contains_address r o a =
  if (a + o <? location r) || (a + o >=? range_end r)
  then MK_ENOT_FOUND else MK_ESUCCESS.
Proof.
  intros Hr Ho Ha Hsum Hfit.
  unfold mk_vm_range_contains_address, mk_vm_address_apply_offset.
  unfold MK_VM_ADDRESS_MAX in *.
  rewrite overflow_guard by assumption.
  destruct (Z.ltb_spec UINT64_MAX (a + o)) as [Hbad | _]; [lia |].
  cbn [store_out is_error default].
  rewrite range_guard_fits by assumption.
  rewrite range_end_exact by assumption.
  rewrite wrap64_small by (unfold is_u64 in *; lia).
  reflexivity.
Qed.

(** C4. When neither [a + o] nor the end of the range overflows,
    [mk_vm_range_contains_address] succeeds exactly when
    [location <= a + o < location + length] and returns NotFound
    otherwise.  The range [make 10 5] holds 10 and neither 15 nor 9, and
    a range of length 0 holds no address. *)
Theorem contains_address_spec (r : mk_vm_range_t) (o a : Z) :
  range_wf r -> is_u64 o -> is_u64 a ->
  a + o <= MK_VM_ADDRESS_MAX -> ~ range_overflows r ->
  (mk_vm_range_contains_address r o a = MK_ESUCCESS
     <-> location r <= a + o < location r + length r) /\
  (~ (location r <= a + o < location r + length r) ->
     mk_vm_range_contains_address r o a = MK_ENOT_FOUND) /\
  (mk_vm_range_contains_address (mk_vm_range_make 10 5) 0 10 = MK_ESUCCESS /\
   mk_vm_range_contains_address (mk_vm_range_make 10 5) 0 15 = MK_ENOT_FOUND /\
   mk_vm_range_contains_address (mk_vm_range_make 10 5) 0 9 = MK_ENOT_FOUND) /\
  (length r = 0 -> mk_vm_range_contains_address r o a = MK_ENOT_FOUND).
Proof.
  intros Hr Ho Ha Hsum Hfit.
  rewrite contains_address_fits by assumption. unfold range_end.
  split; [| split; [| split; [repeat split |]]].
  - split_comparisons; split; try discriminate; try reflexivity; lia.
  - intros Hout. split_comparisons; try reflexivity; lia.
  - intros Hzero. split_comparisons; try reflexivity; lia.
Qed.

Lemma contains_address_spec_witness :
  range_wf (mk_vm_range_make 4096 256) /\ is_u64 16 /\ is_u64 4100 /\
  4100 + 16 <= MK_VM_ADDRESS_MAX /\
  ~ range_overflows (mk_vm_range_make 4096 256) /\
  mk_vm_range_contains_address (mk_vm_range_make 4096 256) 16 4100
  = MK_ESUCCESS.
Proof.
  assert (H1 : range_wf (mk_vm_range_make 4096 256))
    by (unfold range_wf, is_u64, UINT64_MAX; simpl; lia).
  assert (H2 : is_u64 16) by (unfold is_u64, UINT64_MAX; lia).
  assert (H3 : is_u64 4100) by (unfold is_u64, UINT64_MAX; lia).
  assert (H4 : 4100 + 16 <= MK_VM_ADDRESS_MAX)
    by (unfold MK_VM_ADDRESS_MAX, UINT64_MAX; lia).
  assert (H5 : ~ range_overflows (mk_vm_range_make 4096 256))
    by (unfold range_overflows, range_end, MK_VM_SIZE_MAX, UINT64_MAX;
        simpl; lia).
  repeat (split; [assumption |]).
  apply (proj1 (contains_address_spec _ 16 4100 H1 H2 H3 H4 H5)).
  simpl. lia.
Defined.

(** C5. When [location + length] of the range overflows,
    [mk_vm_range_contains_address] returns Overflow for every offset and
    address, whether or not [a + o] overflows or would lie inside. *)
Theorem contains_address_range_overflow (r : mk_vm_range_t) (o a : Z) :
  range_wf r -> is_u64 o -> is_u64 a ->
  range_overflows r ->
  mk_vm_range_contains_address r o a = MK_EOVERFLOW.
Proof.
  intros Hr Ho Ha Hov.
  unfold mk_vm_range_contains_address, mk_vm_address_apply_offset.
  destruct (wrap64 (MK_VM_ADDRESS_MAX - o) <? a); [reflexivity |].
  cbn [store_out is_error default].
  rewrite range_guard by assumption.
  unfold range_overflows in Hov.
  destruct (Z.ltb_spec MK_VM_SIZE_MAX (range_end r)); [reflexivity | lia].
Qed.

Lemma contains_address_range_overflow_witness :
  range_wf (mk_vm_range_make UINT64_MAX 2) /\ is_u64 0 /\ is_u64 0 /\
  range_overflows (mk_vm_range_make UINT64_MAX 2) /\
  mk_vm_range_contains_address (mk_vm_range_make UINT64_MAX 2) 0 0
  = MK_EOVERFLOW.
Proof.
  assert (H1 : range_wf (mk_vm_range_make UINT64_MAX 2))
    by (unfold range_wf, is_u64, UINT64_MAX; simpl; lia).
  assert (H2 : is_u64 0) by (unfold is_u64, UINT64_MAX; lia).
  assert (H3 : range_overflows (mk_vm_range_make UINT64_MAX 2))
    by (unfold range_overflows, range_end, MK_VM_SIZE_MAX, UINT64_MAX;
        simpl; lia).
  repeat (split; [assumption |]).
  exact (contains_address_range_overflow _ 0 0 H1 H2 H2 H3).
Defined.

(** C9. In partial mode an inner range that starts exactly where the
    outer range ends is accepted, although no address lies in both. *)
Theorem contains_range_partial_adjacent (outer inner : mk_vm_range_t) :
  range_wf outer -> range_wf inner ->
  ~ range_overflows outer -> ~ range_overflows inner ->
  location inner = location outer + length outer ->
  mk_vm_range_contains_range outer inner true = MK_ESUCCESS /\
  forall x, is_u64 x ->
    ~ (mk_vm_range_contains_address outer 0 x = MK_ESUCCESS /\
       mk_vm_range_contains_address inner 0 x = MK_ESUCCESS).
Proof.
  intros Ho Hi Hfo Hfi Hadj. split.
  - rewrite contains_range_fits by assumption. unfold range_end.
    destruct Ho as [_ Hlen]. unfold is_u64 in Hlen.
    split_comparisons; try reflexivity; lia.
  - intros x Hx.
    assert (H0 : is_u64 0) by (unfold is_u64, UINT64_MAX; lia).
    assert (Hsum : x + 0 <= MK_VM_ADDRESS_MAX)
      by (unfold is_u64, MK_VM_ADDRESS_MAX in *; lia).
    rewrite !contains_address_fits by assumption. unfold range_end.
    split_comparisons; intros [? ?]; try discriminate; lia.
Qed.

Lemma contains_range_partial_adjacent_witness :
  range_wf (mk_vm_range_make 0 10) /\
  range_wf (mk_vm_range_make 10 5) /\
  ~ range_overflows (mk_vm_range_make 0 10) /\
  ~ range_overflows (mk_vm_range_make 10 5) /\
  location (mk_vm_range_make 10 5)
  = location (mk_vm_range_make 0 10) + length (mk_vm_range_make 0 10) /\
  mk_vm_range_contains_range
    (mk_vm_range_make 0 10) (mk_vm_range_make 10 5) true = MK_ESUCCESS.
Proof.
  assert (H1 : range_wf (mk_vm_range_make 0 10))
    by (unfold range_wf, is_u64, UINT64_MAX; simpl; lia).
  assert (H2 : range_wf (mk_vm_range_make 10 5))
    by (unfold range_wf, is_u64, UINT64_MAX; simpl; lia).
  assert (H3 : ~ range_overflows (mk_vm_range_make 0 10))
    by (unfold range_overflows, range_end, MK_VM_SIZE_MAX, UINT64_MAX;
        simpl; lia).
  assert (H4 : ~ range_overflows (mk_vm_range_make 10 5))
    by (unfold range_overflows, range_end, MK_VM_SIZE_MAX, UINT64_MAX;
        simpl; lia).
  repeat (split; [assumption |]).
  split; [reflexivity |].
  exact (proj1 (contains_range_partial_adjacent _ _ H1 H2 H3 H4 eq_refl)).
Defined.

(** ** Byte order *)

(** The mask that keeps the byte whose lowest bit is bit [k]. *)
Lemma testbit_byte_mask (k m : Z) :
  0 <= k -> Z.testbit (Z.shiftl 255 k) m = (k <=? m) && (m <? k + 8).
Proof.
  intros Hk. destruct (Z.leb_spec k m) as [Hkm | Hkm]; cbn [andb].
  - rewrite Z.shiftl_spec by lia. change 255 with (Z.ones 8).
    destruct (Z.ltb_spec m (k + 8)).
    + apply Z.ones_spec_low. lia.
    + apply Z.ones_spec_high. lia.
  - destruct (Z.neg_nonneg_cases m) as [Hneg | Hpos].
    + now apply Z.testbit_neg_r.
    + apply Z.shiftl_spec_low. lia.
Qed.

Lemma testbit_shiftl_any (a k m : Z) :
  0 <= k -> Z.testbit (Z.shiftl a k) m = (k <=? m) && Z.testbit a (m - k).
Proof.
  intros Hk. destruct (Z.leb_spec k m); cbn [andb].
  - apply Z.shiftl_spec. lia.
  - destruct (Z.neg_nonneg_cases m) as [Hneg | Hpos].
    + now apply Z.testbit_neg_r.
    + apply Z.shiftl_spec_low. lia.
Qed.

Lemma testbit_shiftr_any (a k m : Z) :
  0 <= k -> Z.testbit (Z.shiftr a k) m = (0 <=? m) && Z.testbit a (m + k).
Proof.
  intros Hk. destruct (Z.leb_spec 0 m); cbn [andb].
  - apply Z.shiftr_spec. lia.
  - now apply Z.testbit_neg_r.
Qed.

(** A [w]-bit value has no bit set at or above position [w]. *)
Lemma testbit_above_width (w x m : Z) :
  0 <= w -> 0 <= x < 2 ^ w -> w <= m -> Z.testbit x m = false.
Proof.
  intros Hw Hx Hm. rewrite <- (Z.mod_small x (2 ^ w)) by lia.
  apply Z.mod_pow2_bits_high. lia.
Qed.

Ltac bits_of_swap :=
  rewrite ?Z.lor_spec, ?Z.land_spec, ?testbit_byte_mask,
    ?testbit_shiftl_any, ?testbit_shiftr_any by lia.

Ltac byte_index := Z.div_mod_to_equations; lia.

Ltac decide_comparisons :=
  repeat match goal with
         | |- context [?x <? ?y] =>
             destruct (Z.ltb_spec x y); try byte_index
         | |- context [?x <=? ?y] =>
             destruct (Z.leb_spec x y); try byte_index
         end.

Ltac tidy_bits :=
  cbn [andb orb];
  rewrite ?andb_true_r, ?andb_false_r, ?orb_false_r, ?orb_false_l.

(** Bit [m] of a swapped value is the bit of the argument at the same
    place within the mirrored byte. *)
Lemma OSSwapInt16_testbit (x m : Z) :
  Z.testbit (OSSwapInt16 x) m =
  (0 <=? m) && (m <? 16) && Z.testbit x (m + 8 - 16 * (m / 8)).
Proof.
  unfold OSSwapInt16.
  change 0xff00 with (Z.shiftl 255 8). change 0x00ff with (Z.shiftl 255 0).
  repeat bits_of_swap.
  decide_comparisons; tidy_bits; try reflexivity; f_equal; byte_index.
Qed.

Lemma OSSwapInt32_testbit (x m : Z) :
  Z.testbit (OSSwapInt32 x) m =
  (0 <=? m) && (m <? 32) && Z.testbit x (m + 24 - 16 * (m / 8)).
Proof.
  unfold OSSwapInt32.
  change 0xff000000 with (Z.shiftl 255 24).
  change 0x00ff0000 with (Z.shiftl 255 16).
  change 0x0000ff00 with (Z.shiftl 255 8).
  change 0x000000ff with (Z.shiftl 255 0).
  repeat bits_of_swap.
  decide_comparisons; tidy_bits; try reflexivity; f_equal; byte_index.
Qed.

Lemma OSSwapInt64_testbit (x m : Z) :
  Z.testbit (OSSwapInt64 x) m =
  (0 <=? m) && (m <? 64) && Z.testbit x (m + 56 - 16 * (m / 8)).
Proof.
  unfold OSSwapInt64.
  change 0xff00000000000000 with (Z.shiftl 255 56).
  change 0x00ff000000000000 with (Z.shiftl 255 48).
  change 0x0000ff0000000000 with (Z.shiftl 255 40).
  change 0x000000ff00000000 with (Z.shiftl 255 32).
  change 0x00000000ff000000 with (Z.shiftl 255 24).
  change 0x0000000000ff0000 with (Z.shiftl 255 16).
  change 0x000000000000ff00 with (Z.shiftl 255 8).
  change 0x00000000000000ff with (Z.shiftl 255 0).
  repeat bits_of_swap.
  decide_comparisons; tidy_bits; try reflexivity; f_equal; byte_index.
Qed.

Lemma OSSwapInt16_involutive (x : Z) :
  0 <= x <= UINT16_MAX -> OSSwapInt16 (OSSwapInt16 x) = x.
Proof.
  unfold UINT16_MAX. intros Hx. apply Z.bits_inj'. intros m Hm.
  rewrite !OSSwapInt16_testbit.
  destruct (Z.ltb_spec m 16).
  - decide_comparisons; tidy_bits. f_equal. byte_index.
  - rewrite (testbit_above_width 16 x m) by lia.
    decide_comparisons; try reflexivity.
Qed.

Lemma OSSwapInt32_involutive (x : Z) :
  0 <= x <= UINT32_MAX -> OSSwapInt32 (OSSwapInt32 x) = x.
Proof.
  unfold UINT32_MAX. intros Hx. apply Z.bits_inj'. intros m Hm.
  rewrite !OSSwapInt32_testbit.
  destruct (Z.ltb_spec m 32).
  - decide_comparisons; tidy_bits. f_equal. byte_index.
  - rewrite (testbit_above_width 32 x m) by lia.
    decide_comparisons; try reflexivity.
Qed.

Lemma OSSwapInt64_involutive (x : Z) :
  0 <= x <= UINT64_MAX -> OSSwapInt64 (OSSwapInt64 x) = x.
Proof.
  unfold UINT64_MAX. intros Hx. apply Z.bits_inj'. intros m Hm.
  rewrite !OSSwapInt64_testbit.
  destruct (Z.ltb_spec m 64).
  - decide_comparisons; tidy_bits. f_equal. byte_index.
  - rewrite (testbit_above_width 64 x m) by lia.
    decide_comparisons; try reflexivity.
Qed.

(** C8. The swap of the swapped byte order at each width 16, 32 and 64,
    applied twice to a value of that width, gives the value back; the
    swap of the direct byte order at each width returns its argument. *)
Theorem byteorder_swap_roundtrip (v : Z) :
  (0 <= v <= UINT16_MAX ->
     swap16 mk_byteorder_swapped (swap16 mk_byteorder_swapped v) = v) /\
  (0 <= v <= UINT32_MAX ->
     swap32 mk_byteorder_swapped (swap32 mk_byteorder_swapped v) = v) /\
  (0 <= v <= UINT64_MAX ->
     swap64 mk_byteorder_swapped (swap64 mk_byteorder_swapped v) = v) /\
  swap16 mk_byteorder_direct v = v /\
  swap32 mk_byteorder_direct v = v /\
  swap64 mk_byteorder_direct v = v.
Proof.
  cbn [swap16 swap32 swap64 mk_byteorder_swapped mk_byteorder_direct].
  unfold _mk_swap16, _mk_swap32, _mk_swap64,
    _mk_nswap16, _mk_nswap32, _mk_nswap64.
  split; [apply OSSwapInt16_involutive |].
  split; [apply OSSwapInt32_involutive |].
  split; [apply OSSwapInt64_involutive |].
  repeat split.
Qed.

Lemma byteorder_swap_roundtrip_witness :
  0 <= 0xbeef <= UINT16_MAX /\
  swap16 mk_byteorder_swapped 0xbeef = 0xefbe /\
  swap16 mk_byteorder_swapped (swap16 mk_byteorder_swapped 0xbeef) = 0xbeef /\
  0 <= 0xbeef <= UINT32_MAX /\
  swap32 mk_byteorder_swapped 0xbeef = 0xefbe0000 /\
  swap32 mk_byteorder_swapped (swap32 mk_byteorder_swapped 0xbeef) = 0xbeef /\
  0 <= 0xbeef <= UINT64_MAX /\
  swap64 mk_byteorder_swapped 0xbeef = 0xefbe000000000000 /\
  swap64 mk_byteorder_swapped (swap64 mk_byteorder_swapped 0xbeef) = 0xbeef.
Proof.
  assert (H16 : 0 <= 0xbeef <= UINT16_MAX) by (unfold UINT16_MAX; lia).
  assert (H32 : 0 <= 0xbeef <= UINT32_MAX) by (unfold UINT32_MAX; lia).
  assert (H64 : 0 <= 0xbeef <= UINT64_MAX) by (unfold UINT64_MAX; lia).
  pose proof (byteorder_swap_roundtrip 0xbeef) as (R16 & R32 & R64 & _).
  split; [exact H16 |]. split; [reflexivity |].
  split; [exact (R16 H16) |].
  split; [exact H32 |]. split; [reflexivity |].
  split; [exact (R32 H32) |].
  split; [exact H64 |]. split; [reflexivity |].
  exact (R64 H64).
Defined.

(** ** Buffer swap *)

Section swap_loop.
Local Open Scope nat_scope.
Variables (mem0 : memory) (input len : nat).
Hypothesis span_ok : input + len <= List.length mem0.

(** Reading the reversed memory address by address. *)
Lemma lookup_span_reversed (j : nat) :
  span_reversed mem0 input len !! j =
  if decide (input <= j < input + len)
  then mem0 !! mirror input len j else mem0 !! j.
Proof.
  unfold span_reversed, mirror.
  assert (Hspan : List.length (take len (drop input mem0)) = len)
    by (rewrite length_take, length_drop; lia).
  destruct (decide (j < input)) as [Hlo | Hlo].
  - rewrite lookup_app_l by (rewrite length_take; lia).
    rewrite lookup_take_lt by lia.
    destruct (decide _); [lia | reflexivity].
  - rewrite lookup_app_r by (rewrite length_take; lia).
    rewrite length_take_le by lia.
    destruct (decide (input <= j < input + len)) as [Hin | Hout].
    + rewrite lookup_app_l by (rewrite length_reverse, Hspan; lia).
      rewrite reverse_lookup by (rewrite Hspan; lia).
      rewrite Hspan, lookup_take_lt by lia.
      rewrite lookup_drop. f_equal. lia.
    + rewrite lookup_app_r by (rewrite length_reverse, Hspan; lia).
      rewrite length_reverse, Hspan, lookup_drop. f_equal. lia.
Qed.

Lemma length_span_reversed :
  List.length (span_reversed mem0 input len) = List.length mem0.
Proof.
  unfold span_reversed.
  rewrite !length_app, length_reverse, !length_take, !length_drop. lia.
Qed.

Lemma swapped_ends_start : swapped_ends mem0 input len 0 mem0.
Proof.
  split; [reflexivity |]. intros j.
  destruct (decide _); [lia | reflexivity].
Qed.

(** One turn of the loop: both reads hit the memory, and the two
    writes extend the traded ends by one byte on each side. *)
Lemma swapped_ends_step (i : nat) (m : memory) :
  i < len / 2 -> swapped_ends mem0 input len i m ->
  exists temp other,
    m !! (input + i) = Some temp /\
    m !! (input + (len - i - 1)) = Some other /\
    swapped_ends mem0 input len (S i)
      (<[input + (len - i - 1) := temp]> (<[input + i := other]> m)).
Proof.
  intros Hi [Hlen Hm].
  assert (Hhalf : 2 * i + 2 <= len).
  { pose proof (Nat.div_mod_eq len 2).
    pose proof (Nat.mod_upper_bound len 2). lia. }
  destruct (lookup_lt_is_Some_2 mem0 (input + i)) as [temp Htemp]; [lia |].
  destruct (lookup_lt_is_Some_2 mem0 (input + (len - i - 1)))
    as [other Hother]; [lia |].
  exists temp, other.
  assert (Hlo : m !! (input + i) = Some temp).
  { rewrite Hm. destruct (decide _); [lia | exact Htemp]. }
  assert (Hhi : m !! (input + (len - i - 1)) = Some other).
  { rewrite Hm. destruct (decide _); [lia | exact Hother]. }
  split; [exact Hlo | split; [exact Hhi |]].
  split; [now rewrite !length_insert |].
  intros j. unfold mirror.
  destruct (decide (j = input + (len - i - 1))) as [-> | Hnhi].
  - rewrite list_lookup_insert_eq by (rewrite length_insert; lia).
    destruct (decide _); [| lia].
    rewrite <- Htemp. f_equal. lia.
  - rewrite list_lookup_insert_ne by lia.
    destruct (decide (j = input + i)) as [-> | Hnlo].
    + rewrite list_lookup_insert_eq by lia.
      destruct (decide _); [| lia].
      rewrite <- Hother. f_equal. lia.
    + rewrite list_lookup_insert_ne by lia.
      rewrite Hm. unfold mirror.
      destruct (decide _), (decide _); try reflexivity; lia.
Qed.

(** The loop never reads outside the span and never runs out of fuel
    when given one unit more than the turns that are left. *)
Lemma swap_loop_runs (fuel i : nat) (m : memory) :
  i <= len / 2 -> len / 2 - i < fuel -> swapped_ends mem0 input len i m ->
  exists m',
    _mk_swap_loop fuel m input len i = Some m' /\
    swapped_ends mem0 input len (len / 2) m'.
Proof.
  revert i m. induction fuel as [| fuel IH]; intros i m Hi Hfuel Hm.
  - lia.
  - cbn [_mk_swap_loop].
    destruct (Nat.ltb_spec i (len / 2)) as [Hlt | Hge].
    + destruct (swapped_ends_step i m Hlt Hm)
        as (temp & other & -> & -> & Hnext).
      apply IH; [lia | lia | exact Hnext].
    + exists m. split; [reflexivity |].
      now replace (len / 2) with i by lia.
Qed.

(** Once half the span has been traded the whole span is reversed. *)
Lemma swapped_ends_all (m : memory) :
  swapped_ends mem0 input len (len / 2) m ->
  m = span_reversed mem0 input len.
Proof.
  intros [Hlen Hm]. apply list_eq. intros j.
  rewrite Hm, lookup_span_reversed. unfold mirror.
  pose proof (Nat.div_mod_eq len 2).
  pose proof (Nat.mod_upper_bound len 2).
  destruct (decide _), (decide _); try reflexivity; try lia.
  f_equal. lia.
Qed.

Lemma _mk_swap_reverses :
  _mk_swap mem0 input len = Some (input, span_reversed mem0 input len).
Proof.
  unfold _mk_swap.
  destruct (swap_loop_runs (S (len / 2)) 0 mem0) as (m' & -> & Hm');
    [lia | lia | exact swapped_ends_start |].
  now rewrite (swapped_ends_all m' Hm').
Qed.

Lemma read_span_reversed :
  read_span (span_reversed mem0 input len) input len
  = Some (reverse (take len (drop input mem0))).
Proof.
  unfold read_span. rewrite length_span_reversed.
  destruct (Nat.leb_spec (input + len) (List.length mem0)); [| lia].
  f_equal. unfold span_reversed.
  rewrite drop_app_length' by (rewrite length_take; lia).
  apply take_app_length'.
  rewrite length_reverse, length_take, length_drop. lia.
Qed.
End swap_loop.

Lemma span_reversed_involutive (mem : memory) (input len : nat) :
  (input + len <= List.length mem)%nat ->
  span_reversed (span_reversed mem input len) input len = mem.
Proof.
  intros Hok. apply list_eq. intros j.
  rewrite lookup_span_reversed by (now rewrite length_span_reversed).
  destruct (decide (input <= j < input + len)%nat) as [Hin | Hout].
  - rewrite lookup_span_reversed by assumption. unfold mirror.
    destruct (decide _); [| lia]. f_equal. lia.
  - rewrite lookup_span_reversed by assumption.
    destruct (decide _); [lia | reflexivity].
Qed.

(** C10. On a span that lies inside the memory, the buffer swap of the
    swapped byte order returns the pointer it was given, leaves the span
    holding its former bytes in reverse order and every byte outside the
    span untouched; applied once more with the same length it restores
    the memory. *)
Theorem mk_swap_reverses_in_place (mem : memory) (input len : nat) :
  (input + len <= List.length mem)%nat ->
  exists (bytes : list Byte.byte) (mem' : memory),
    read_span mem input len = Some bytes /\
    swap mk_byteorder_swapped mem input len = Some (input, mem') /\
    read_span mem' input len = Some (reverse bytes) /\
    (forall j : nat, ~ (input <= j < input + len)%nat -> mem' !! j = mem !! j) /\
    swap mk_byteorder_swapped mem' input len = Some (input, mem).
Proof.
  intros Hok.
  exists (take len (drop input mem)), (span_reversed mem input len).
  cbn [swap mk_byteorder_swapped].
  split.
  { unfold read_span.
    destruct (Nat.leb_spec (input + len) (List.length mem)); [reflexivity | lia]. }
  split; [now apply _mk_swap_reverses |].
  split; [now apply read_span_reversed |].
  split.
  - intros j Hout. rewrite lookup_span_reversed by assumption.
    destruct (decide _); [contradiction | reflexivity].
  - rewrite _mk_swap_reverses by (now rewrite length_span_reversed).
    now rewrite span_reversed_involutive.
Qed.

Lemma mk_swap_reverses_in_place_witness :
  (1 + 5 <= List.length
     ["a"; "b"; "c"; "d"; "e"; "f"; "g"]%byte)%nat /\
  swap mk_byteorder_swapped ["a"; "b"; "c"; "d"; "e"; "f"; "g"]%byte 1 5
  = Some (1%nat, ["a"; "f"; "e"; "d"; "c"; "b"; "g"]%byte) /\
  exists (bytes : list Byte.byte) (mem' : memory),
    read_span ["a"; "b"; "c"; "d"; "e"; "f"; "g"]%byte 1 5 = Some bytes /\
    swap mk_byteorder_swapped ["a"; "b"; "c"; "d"; "e"; "f"; "g"]%byte 1 5
    = Some (1%nat, mem') /\
    read_span mem' 1 5 = Some (reverse bytes) /\
    (forall j : nat, ~ (1 <= j < 1 + 5)%nat ->
       mem' !! j = ["a"; "b"; "c"; "d"; "e"; "f"; "g"]%byte !! j) /\
    swap mk_byteorder_swapped mem' 1 5
    = Some (1%nat, ["a"; "b"; "c"; "d"; "e"; "f"; "g"]%byte).
Proof.
  assert (H : (1 + 5 <= List.length
                 ["a"; "b"; "c"; "d"; "e"; "f"; "g"]%byte)%nat)
    by (simpl; lia).
  split; [exact H |]. split; [reflexivity |].
  exact (mk_swap_reverses_in_place _ 1 5 H).
Defined.

(** ** Type runtime *)

Section descriptor_chain.
Variable vts : gmap Z _mk_type_vtable.
Variable root : ptr.

(** What a chain of [n] links says about its first descriptor. *)
Lemma ends_at_root_O (d : ptr) :
  ends_at_root vts root 0 d = true ->
  d = root /\ d <> NULL /\
  exists v, vts !! d = Some v /\ super v = NULL.
Proof.
  cbn [ends_at_root]. intros H.
  apply andb_true_iff in H as [H Hv].
  apply andb_true_iff in H as [Hd Hr].
  apply Z.eqb_eq in Hd. subst d.
  apply negb_true_iff, Z.eqb_neq in Hr.
  destruct (vts !! root) as [v |]; [| discriminate].
  apply Z.eqb_eq in Hv. eauto.
Qed.

Lemma ends_at_root_S (n : nat) (d : ptr) :
  ends_at_root vts root (S n) d = true ->
  d <> NULL /\
  exists v, vts !! d = Some v /\ super v <> NULL /\
            ends_at_root vts root n (super v) = true.
Proof.
  cbn [ends_at_root]. intros H.
  apply andb_true_iff in H as [Hd Hv].
  apply negb_true_iff, Z.eqb_neq in Hd.
  destruct (vts !! d) as [v |]; [| discriminate].
  apply andb_true_iff in Hv as [Hs Hrest].
  apply negb_true_iff, Z.eqb_neq in Hs. eauto.
Qed.

Lemma ends_at_root_nonnull (n : nat) (d : ptr) :
  ends_at_root vts root n d = true -> d <> NULL.
Proof.
  destruct n; intros H.
  - now apply ends_at_root_O in H as (_ & Hd & _).
  - now apply ends_at_root_S in H as (Hd & _).
Qed.

(** A descriptor is at one distance from the root only: the registry
    gives each descriptor one [super], so chains do not fork. *)
Lemma ends_at_root_unique (n n' : nat) (d : ptr) :
  ends_at_root vts root n d = true ->
  ends_at_root vts root n' d = true ->
  n = n'.
Proof.
  revert n' d. induction n as [| n IH]; intros [| n'] d Hn Hn'.
  - reflexivity.
  - apply ends_at_root_O in Hn as (_ & _ & v & Hv & Hsuper).
    apply ends_at_root_S in Hn' as (_ & v' & Hv' & Hsuper' & _).
    congruence.
  - apply ends_at_root_S in Hn as (_ & v & Hv & Hsuper & _).
    apply ends_at_root_O in Hn' as (_ & _ & v' & Hv' & Hsuper').
    congruence.
  - apply ends_at_root_S in Hn as (_ & v & Hv & _ & Hrest).
    apply ends_at_root_S in Hn' as (_ & v' & Hv' & _ & Hrest').
    f_equal. apply (IH n' (super v)); [exact Hrest |]. congruence.
Qed.

(** The walk reaches the root. *)
Lemma kind_of_loop_root (n fuel : nat) (d : ptr) :
  ends_at_root vts root n d = true -> (n + 1 <= fuel)%nat ->
  kind_of_loop vts fuel d root = Some true.
Proof.
  revert fuel d. induction n as [| n IH]; intros [| fuel] d Hd Hfuel;
    try lia; cbn [kind_of_loop].
  - apply ends_at_root_O in Hd as (-> & Hnn & _).
    apply Z.eqb_neq in Hnn. rewrite Hnn. now rewrite Z.eqb_refl.
  - apply ends_at_root_S in Hd as (Hnn & v & Hv & _ & Hrest).
    apply Z.eqb_neq in Hnn. rewrite Hnn.
    destruct (d =? root); [reflexivity |].
    rewrite Hv. apply IH; [exact Hrest | lia].
Qed.

(** The walk stops at once on the tag itself. *)
Lemma kind_of_loop_self (fuel : nat) (d : ptr) :
  d <> NULL -> (1 <= fuel)%nat ->
  kind_of_loop vts fuel d d = Some true.
Proof.
  intros Hnn Hfuel. destruct fuel as [| fuel]; [lia |].
  cbn [kind_of_loop]. apply Z.eqb_neq in Hnn. rewrite Hnn.
  now rewrite Z.eqb_refl.
Qed.

(** The walk runs off the root when the descriptor sought is neither
    the starting one nor any that lies nearer to the root. *)
Lemma kind_of_loop_absent (n fuel : nat) (d type : ptr) :
  ends_at_root vts root n d = true ->
  d <> type ->
  (forall j, (j < n)%nat -> ends_at_root vts root j type = false) ->
  (n + 2 <= fuel)%nat ->
  kind_of_loop vts fuel d type = Some false.
Proof.
  revert fuel d. induction n as [| n IH];
    intros [| fuel] d Hd Hne Hfar Hfuel; try lia; cbn [kind_of_loop].
  - apply ends_at_root_O in Hd as (-> & Hnn & v & Hv & Hsuper).
    apply Z.eqb_neq in Hnn, Hne. rewrite Hnn, Hne, Hv, Hsuper.
    destruct fuel as [| fuel]; [lia | reflexivity].
  - apply ends_at_root_S in Hd as (Hnn & v & Hv & _ & Hrest).
    apply Z.eqb_neq in Hnn, Hne. rewrite Hnn, Hne, Hv.
    apply IH; [exact Hrest | | | lia].
    + intros Heq. rewrite Heq, (Hfar n) in Hrest by lia. discriminate.
    + intros j Hj. apply Hfar. lia.
Qed.

(** A descriptor that shares its [super] with another one lies at the
    same distance from the root, hence nowhere nearer. *)
Lemma sibling_not_nearer (n : nat) (d1 d2 : ptr) (v1 v2 : _mk_type_vtable) :
  ends_at_root vts root n d1 = true ->
  vts !! d1 = Some v1 -> vts !! d2 = Some v2 ->
  super v1 = super v2 -> d1 <> d2 ->
  forall j, (j < n)%nat -> ends_at_root vts root j d2 = false.
Proof.
  intros Hd1 Hv1 Hv2 Hsame Hne j Hj.
  destruct n as [| n]; [lia |].
  apply ends_at_root_S in Hd1 as (_ & v & Hv & Hsuper & Hrest).
  assert (v = v1) by congruence. subst v.
  destruct (ends_at_root vts root j d2) eqn:Hd2; [| reflexivity].
  exfalso. destruct j as [| j].
  - apply ends_at_root_O in Hd2 as (_ & _ & v & Hv' & Hnull). congruence.
  - apply ends_at_root_S in Hd2 as (_ & v & Hv' & _ & Hrest').
    assert (v = v2) by congruence. subst v.
    rewrite <- Hsame in Hrest'.
    pose proof (ends_at_root_unique _ _ _ Hrest Hrest'). lia.
Qed.
End descriptor_chain.

(** C7. For a handle whose tag starts a finite chain of descriptors that
    ends at the root, with enough fuel for the walk,
    [mk_type_is_kind_of] answers true for the root, true for the tag
    itself, and false for every other descriptor that has the same
    [super] as the tag. *)
Theorem mk_type_is_kind_of_chain
    (rt : runtime) (root mk : ptr) (base : _mk_runtime_base_t)
    (n fuel : nat) :
  objects rt !! mk = Some base ->
  ends_at_root (vtables rt) root n (vtable base) = true ->
  (n + 2 <= fuel)%nat ->
  mk_type_is_kind_of rt fuel mk root = Some true /\
  mk_type_is_kind_of rt fuel mk (vtable base) = Some true /\
  forall (d2 : ptr) (v1 v2 : _mk_type_vtable),
    vtables rt !! vtable base = Some v1 ->
    vtables rt !! d2 = Some v2 ->
    super v1 = super v2 ->
    vtable base <> d2 ->
    mk_type_is_kind_of rt fuel mk d2 = Some false.
Proof.
  intros Hmk Hchain Hfuel. unfold mk_type_is_kind_of. rewrite Hmk.
  split; [| split].
  - apply (kind_of_loop_root _ _ n); [exact Hchain | lia].
  - apply kind_of_loop_self; [| lia].
    exact (ends_at_root_nonnull _ _ _ _ Hchain).
  - intros d2 v1 v2 Hv1 Hv2 Hsame Hne.
    apply (kind_of_loop_absent _ root n); [exact Hchain | exact Hne | | lia].
    exact (sibling_not_nearer _ _ _ _ _ _ _ Hchain Hv1 Hv2 Hsame Hne).
Qed.

Lemma mk_type_is_kind_of_chain_witness :
  objects sample_runtime !! 0x9000 = Some {| vtable := 0x2000 |} /\
  ends_at_root (vtables sample_runtime) 0x1000 1 0x2000 = true /\
  (1 + 2 <= 3)%nat /\
  mk_type_is_kind_of sample_runtime 3 0x9000 0x1000 = Some true /\
  mk_type_is_kind_of sample_runtime 3 0x9000 0x2000 = Some true /\
  mk_type_is_kind_of sample_runtime 3 0x9000 0x3000 = Some false.
Proof.
  assert (H1 : objects sample_runtime !! 0x9000 = Some {| vtable := 0x2000 |})
    by reflexivity.
  assert (H2 : ends_at_root (vtables sample_runtime) 0x1000 1 0x2000 = true)
    by reflexivity.
  assert (H3 : (1 + 2 <= 3)%nat) by lia.
  destruct (mk_type_is_kind_of_chain sample_runtime 0x1000 0x9000
              {| vtable := 0x2000 |} 1 3 H1 H2 H3) as (Hroot & Hself & Hsib).
  split; [exact H1 |]. split; [exact H2 |]. split; [exact H3 |].
  split; [exact Hroot |]. split; [exact Hself |].
  eapply (Hsib 0x3000); [reflexivity | reflexivity | reflexivity |].
  cbn [vtable]. lia.
Defined.

(** * Further properties of the checked arithmetic and of ranges *)

(** Closes the side conditions of an instance at numerals. *)
Ltac at_numerals :=
  unfold range_overflows, range_end, range_wf, is_u64, mk_vm_range_make,
    MK_VM_ADDRESS_MAX, MK_VM_SIZE_MAX, UINT64_MAX;
  cbn [location length]; lia.

(** X1. [mk_vm_address_add] stores the exact sum and succeeds when the
    sum is at most [MK_VM_ADDRESS_MAX]; otherwise it returns Overflow and
    leaves the target of the result pointer as it was. *)
Theorem mk_vm_address_add_spec (a b : Z) (result : out_cell) :
  is_u64 a -> is_u64 b ->
  (a + b <= MK_VM_ADDRESS_MAX ->
     mk_vm_address_add a b result = (MK_ESUCCESS, store_out result (a + b))) /\
  (a + b > MK_VM_ADDRESS_MAX ->
     mk_vm_address_add a b result = (MK_EOVERFLOW, result)).
Proof.
  intros Ha Hb. unfold mk_vm_address_add, MK_VM_ADDRESS_MAX.
  rewrite overflow_guard by assumption.
  destruct (Z.ltb_spec UINT64_MAX (a + b)) as [Hov | Hfit].
  - split; [lia | reflexivity].
  - split; [| lia]. intros _.
    rewrite wrap64_small by (unfold is_u64 in *; lia). reflexivity.
Qed.

Lemma mk_vm_address_add_spec_witness :
  is_u64 UINT64_MAX /\ is_u64 1 /\ is_u64 0 /\
  mk_vm_address_add UINT64_MAX 0 (Some 7) = (MK_ESUCCESS, Some UINT64_MAX) /\
  mk_vm_address_add UINT64_MAX 1 (Some 7) = (MK_EOVERFLOW, Some 7).
Proof.
  assert (H1 : is_u64 UINT64_MAX) by at_numerals.
  assert (H2 : is_u64 1) by at_numerals.
  assert (H3 : is_u64 0) by at_numerals.
  repeat (split; [assumption |]). split.
  - apply (proj1 (mk_vm_address_add_spec UINT64_MAX 0 (Some 7) H1 H3)).
    at_numerals.
  - apply (proj2 (mk_vm_address_add_spec UINT64_MAX 1 (Some 7) H1 H2)).
    at_numerals.
Defined.

(** X2. [mk_vm_address_add] does not depend on the order of its two
    addresses: the same error and the same stored value either way. *)
Theorem mk_vm_address_add_comm (a b : Z) (result : out_cell) :
  is_u64 a -> is_u64 b ->
  mk_vm_address_add a b result = mk_vm_address_add b a result.
Proof.
  intros Ha Hb. unfold mk_vm_address_add, MK_VM_ADDRESS_MAX.
  rewrite !overflow_guard by assumption.
  now rewrite (Z.add_comm b a).
Qed.

Lemma mk_vm_address_add_comm_witness :
  is_u64 3 /\ is_u64 UINT64_MAX /\
  mk_vm_address_add 3 UINT64_MAX (Some 0)
  = mk_vm_address_add UINT64_MAX 3 (Some 0).
Proof.
  assert (H1 : is_u64 3) by at_numerals.
  assert (H2 : is_u64 UINT64_MAX) by at_numerals.
  repeat (split; [assumption |]).
  exact (mk_vm_address_add_comm 3 UINT64_MAX (Some 0) H1 H2).
Defined.

(** X3. The three checked operations report the same error whether or
    not a result pointer is given, and on failure they write nothing
    through it. *)
Theorem checked_ops_failure_writes_nothing (a b : Z) (result : out_cell) :
  (fst (mk_vm_address_apply_offset a b result)
   = fst (mk_vm_address_apply_offset a b None) /\
   fst (mk_vm_address_add a b result)
   = fst (mk_vm_address_add a b None) /\
   fst (mk_vm_address_substract a b result)
   = fst (mk_vm_address_substract a b None)) /\
  (fst (mk_vm_address_apply_offset a b result) <> MK_ESUCCESS ->
     mk_vm_address_apply_offset a b result = (MK_EOVERFLOW, result)) /\
  (fst (mk_vm_address_add a b result) <> MK_ESUCCESS ->
     mk_vm_address_add a b result = (MK_EOVERFLOW, result)) /\
  (fst (mk_vm_address_substract a b result) <> MK_ESUCCESS ->
     mk_vm_address_substract a b result = (MK_EUNDERFLOW, result)).
Proof.
  unfold mk_vm_address_apply_offset, mk_vm_address_add,
    mk_vm_address_substract.
  destruct (wrap64 (MK_VM_ADDRESS_MAX - b) <? a), (b >? a); cbn [fst];
    repeat split; intros; try reflexivity; congruence.
Qed.

(** X4. When [mk_vm_address_add] succeeds, subtracting either operand
    from the stored sum succeeds and gives the other operand back. *)
Theorem mk_vm_address_add_substract_roundtrip (a b old s : Z) :
  is_u64 a -> is_u64 b ->
  mk_vm_address_add a b (Some old) = (MK_ESUCCESS, Some s) ->
  forall old',
    mk_vm_address_substract s b (Some old') = (MK_ESUCCESS, Some a) /\
    mk_vm_address_substract s a (Some old') = (MK_ESUCCESS, Some b).
Proof.
  intros Ha Hb. unfold mk_vm_address_add, MK_VM_ADDRESS_MAX.
  rewrite overflow_guard by assumption.
  destruct (Z.ltb_spec UINT64_MAX (a + b)) as [Hov | Hfit];
    [discriminate |].
  cbn [store_out]. rewrite wrap64_small by (unfold is_u64 in *; lia).
  intros [= <-] old'. unfold mk_vm_address_substract, is_u64 in *.
  destruct (Z.gtb_spec b (a + b)), (Z.gtb_spec a (a + b)); try lia.
  cbn [store_out].
  replace (a + b - b) with a by lia. replace (a + b - a) with b by lia.
  now rewrite !wrap64_small by lia.
Qed.

Lemma mk_vm_address_add_substract_roundtrip_witness :
  is_u64 4096 /\ is_u64 64 /\
  mk_vm_address_add 4096 64 (Some 0) = (MK_ESUCCESS, Some 4160) /\
  mk_vm_address_substract 4160 64 (Some 1) = (MK_ESUCCESS, Some 4096) /\
  mk_vm_address_substract 4160 4096 (Some 1) = (MK_ESUCCESS, Some 64).
Proof.
  assert (H1 : is_u64 4096) by at_numerals.
  assert (H2 : is_u64 64) by at_numerals.
  repeat (split; [assumption |]). split; [reflexivity |].
  exact (mk_vm_address_add_substract_roundtrip 4096 64 0 4160 H1 H2
           eq_refl 1).
Defined.

(** X5. [mk_vm_address_check_length] succeeds exactly when the address
    plus the length is at most [MK_VM_SIZE_MAX], and returns Overflow in
    every other case. *)
Theorem mk_vm_address_check_length_spec (addr len : Z) :
  is_u64 addr -> is_u64 len ->
  (mk_vm_address_check_length addr len = MK_ESUCCESS
     <-> addr + len <= MK_VM_SIZE_MAX) /\
  (mk_vm_address_check_length addr len = MK_EOVERFLOW
     <-> addr + len > MK_VM_SIZE_MAX).
Proof.
  intros Ha Hl. unfold mk_vm_address_check_length, MK_VM_SIZE_MAX.
  rewrite overflow_guard by assumption.
  destruct (Z.ltb_spec UINT64_MAX (addr + len)); split; split;
    intros; try reflexivity; try discriminate; lia.
Qed.

Lemma mk_vm_address_check_length_spec_witness :
  is_u64 (UINT64_MAX - 16) /\ is_u64 16 /\ is_u64 17 /\
  mk_vm_address_check_length (UINT64_MAX - 16) 16 = MK_ESUCCESS /\
  mk_vm_address_check_length (UINT64_MAX - 16) 17 = MK_EOVERFLOW.
Proof.
  assert (H1 : is_u64 (UINT64_MAX - 16)) by at_numerals.
  assert (H2 : is_u64 16) by at_numerals.
  assert (H3 : is_u64 17) by at_numerals.
  repeat (split; [assumption |]). split.
  - apply (proj1 (mk_vm_address_check_length_spec _ 16 H1 H2)). at_numerals.
  - apply (proj2 (mk_vm_address_check_length_spec _ 17 H1 H3)). at_numerals.
Defined.

(** What [mk_vm_range_contains_range] computes on any two ranges, with
    the ends read on integers. *)
Lemma contains_range_cases (outer inner : mk_vm_range_t) (partial : bool) :
  range_wf outer -> range_wf inner ->
  mk_vm_range_contains_range outer inner partial =
  if MK_VM_SIZE_MAX <? range_end outer then MK_EOVERFLOW
  else if MK_VM_SIZE_MAX <? range_end inner then MK_EOVERFLOW
  else if partial then
    if (location inner <? location outer)
       && (range_end inner <? location outer)
    then MK_ENOT_FOUND
    else if location inner >? range_end outer then MK_ENOT_FOUND
    else MK_ESUCCESS
  else
    if location inner <? location outer then MK_ENOT_FOUND
    else if range_end inner >? range_end outer then MK_ENOT_FOUND
    else MK_ESUCCESS.
Proof.
  intros Ho Hi. unfold mk_vm_range_contains_range.
  rewrite !range_guard by assumption.
  destruct (Z.ltb_spec MK_VM_SIZE_MAX (range_end outer)); [reflexivity |].
  destruct (Z.ltb_spec MK_VM_SIZE_MAX (range_end inner)); [reflexivity |].
  now rewrite !range_end_exact by (try assumption; unfold range_overflows; lia).
Qed.

(** The same for [mk_vm_range_contains_address]. *)
Lemma contains_address_cases (r : mk_vm_range_t) (o a : Z) :
  range_wf r -> is_u64 o -> is_u64 a ->
  mk_vm_range_contains_address r o a =
  if MK_VM_ADDRESS_MAX <? a + o then MK_EOVERFLOW
  else if MK_VM_SIZE_MAX <? range_end r then MK_EOVERFLOW
  else if (a + o <? location r) || (a + o >=? range_end r)
  then MK_ENOT_FOUND else MK_ESUCCESS.
Proof.
  intros Hr Ho Ha.
  unfold mk_vm_range_contains_address, mk_vm_address_apply_offset.
  unfold MK_VM_ADDRESS_MAX. rewrite overflow_guard by assumption.
  destruct (Z.ltb_spec UINT64_MAX (a + o)); [reflexivity |].
  cbn [store_out is_error default].
  rewrite range_guard by assumption.
  destruct (Z.ltb_spec MK_VM_SIZE_MAX (range_end r)); [reflexivity |].
  rewrite range_end_exact by (try assumption; unfold range_overflows; lia).
  now rewrite wrap64_small by (unfold is_u64 in *; lia).
Qed.

(** Rewrites the two containment tests to their integer reading and
    splits on every comparison. *)
Ltac range_cases :=
  rewrite ?contains_range_cases, ?contains_address_cases by assumption;
  unfold range_end, range_wf, is_u64, MK_VM_ADDRESS_MAX, MK_VM_SIZE_MAX in *;
  split_comparisons.

(** X6. [mk_vm_range_contains_range] returns Overflow, in either mode,
    exactly when [mk_vm_address_check_length] rejects the outer or the
    inner range; its only other results are success and NotFound. *)
Theorem contains_range_overflow_iff
    (outer inner : mk_vm_range_t) (partial : bool) :
  range_wf outer -> range_wf inner ->
  (mk_vm_range_contains_range outer inner partial = MK_EOVERFLOW
     <-> mk_vm_address_check_length (location outer) (length outer)
         = MK_EOVERFLOW
         \/ mk_vm_address_check_length (location inner) (length inner)
            = MK_EOVERFLOW) /\
  (mk_vm_range_contains_range outer inner partial = MK_EOVERFLOW
   \/ mk_vm_range_contains_range outer inner partial = MK_ENOT_FOUND
   \/ mk_vm_range_contains_range outer inner partial = MK_ESUCCESS).
Proof.
  intros Ho Hi. unfold mk_vm_address_check_length.
  rewrite !range_guard by assumption.
  rewrite contains_range_cases by assumption.
  destruct (MK_VM_SIZE_MAX <? range_end outer),
           (MK_VM_SIZE_MAX <? range_end inner); cbn [orb].
  1-3: split; [split; auto | auto].
  split.
  - split; [| intros [? | ?]; discriminate].
    destruct partial; split_comparisons; discriminate.
  - destruct partial; split_comparisons; auto.
Qed.

Lemma contains_range_overflow_iff_witness :
  range_wf (mk_vm_range_make 0 10) /\
  range_wf (mk_vm_range_make UINT64_MAX 1) /\
  mk_vm_range_contains_range
    (mk_vm_range_make 0 10) (mk_vm_range_make UINT64_MAX 1) true
  = MK_EOVERFLOW.
Proof.
  assert (H1 : range_wf (mk_vm_range_make 0 10)) by at_numerals.
  assert (H2 : range_wf (mk_vm_range_make UINT64_MAX 1)) by at_numerals.
  repeat (split; [assumption |]).
  apply (proj1 (contains_range_overflow_iff _ _ true H1 H2)).
  right. reflexivity.
Defined.

(** X7. [mk_vm_range_contains_address] returns Overflow exactly when the
    address plus the offset exceeds [MK_VM_ADDRESS_MAX] or the end of the
    range overflows; its only other results are success and NotFound. *)
Theorem contains_address_overflow_iff (r : mk_vm_range_t) (o a : Z) :
  range_wf r -> is_u64 o -> is_u64 a ->
  (mk_vm_range_contains_address r o a = MK_EOVERFLOW
     <-> a + o > MK_VM_ADDRESS_MAX \/ range_overflows r) /\
  (mk_vm_range_contains_address r o a = MK_EOVERFLOW
   \/ mk_vm_range_contains_address r o a = MK_ENOT_FOUND
   \/ mk_vm_range_contains_address r o a = MK_ESUCCESS).
Proof.
  intros Hr Ho Ha. unfold range_overflows. range_cases;
    (split; [split; [try discriminate; try lia; auto; intros _; lia
                    | try reflexivity; lia]
            | auto]).
Qed.

Lemma contains_address_overflow_iff_witness :
  range_wf (mk_vm_range_make 0 10) /\ is_u64 1 /\ is_u64 UINT64_MAX /\
  mk_vm_range_contains_address (mk_vm_range_make 0 10) 1 UINT64_MAX
  = MK_EOVERFLOW.
Proof.
  assert (H1 : range_wf (mk_vm_range_make 0 10)) by at_numerals.
  assert (H2 : is_u64 1) by at_numerals.
  assert (H3 : is_u64 UINT64_MAX) by at_numerals.
  repeat (split; [assumption |]).
  apply (proj1 (contains_address_overflow_iff _ 1 UINT64_MAX H1 H2 H3)).
  left. at_numerals.
Defined.

(** X8. A range that does not overflow contains itself, in strict and in
    partial mode. *)
Theorem contains_range_refl (r : mk_vm_range_t) (partial : bool) :
  range_wf r -> ~ range_overflows r ->
  mk_vm_range_contains_range r r partial = MK_ESUCCESS.
Proof.
  intros Hr Hfit. unfold range_overflows in Hfit.
  destruct partial; range_cases; try reflexivity; lia.
Qed.

Lemma contains_range_refl_witness :
  range_wf (mk_vm_range_make 4096 256) /\
  ~ range_overflows (mk_vm_range_make 4096 256) /\
  mk_vm_range_contains_range
    (mk_vm_range_make 4096 256) (mk_vm_range_make 4096 256) false
  = MK_ESUCCESS.
Proof.
  assert (H1 : range_wf (mk_vm_range_make 4096 256)) by at_numerals.
  assert (H2 : ~ range_overflows (mk_vm_range_make 4096 256)) by at_numerals.
  repeat (split; [assumption |]).
  exact (contains_range_refl _ false H1 H2).
Defined.

(** X9. Strict containment is transitive: a range strictly inside a
    range that is strictly inside a third one is strictly inside the
    third. *)
Theorem contains_range_strict_trans (r1 r2 r3 : mk_vm_range_t) :
  range_wf r1 -> range_wf r2 -> range_wf r3 ->
  mk_vm_range_contains_range r1 r2 false = MK_ESUCCESS ->
  mk_vm_range_contains_range r2 r3 false = MK_ESUCCESS ->
  mk_vm_range_contains_range r1 r3 false = MK_ESUCCESS.
Proof.
  intros H1 H2 H3. range_cases; intros; try discriminate;
    try reflexivity; lia.
Qed.

Lemma contains_range_strict_trans_witness :
  range_wf (mk_vm_range_make 0 100) /\
  range_wf (mk_vm_range_make 10 50) /\
  range_wf (mk_vm_range_make 20 5) /\
  mk_vm_range_contains_range
    (mk_vm_range_make 0 100) (mk_vm_range_make 20 5) false = MK_ESUCCESS.
Proof.
  assert (H1 : range_wf (mk_vm_range_make 0 100)) by at_numerals.
  assert (H2 : range_wf (mk_vm_range_make 10 50)) by at_numerals.
  assert (H3 : range_wf (mk_vm_range_make 20 5)) by at_numerals.
  repeat (split; [assumption |]).
  exact (contains_range_strict_trans _ _ _ H1 H2 H3 eq_refl eq_refl).
Defined.

(** X10. Whatever strict mode accepts, partial mode accepts too. *)
Theorem contains_range_strict_partial (outer inner : mk_vm_range_t) :
  range_wf outer -> range_wf inner ->
  mk_vm_range_contains_range outer inner false = MK_ESUCCESS ->
  mk_vm_range_contains_range outer inner true = MK_ESUCCESS.
Proof.
  intros Ho Hi. range_cases; intros; try discriminate;
    try reflexivity; lia.
Qed.

Lemma contains_range_strict_partial_witness :
  range_wf (mk_vm_range_make 0 100) /\
  range_wf (mk_vm_range_make 10 50) /\
  mk_vm_range_contains_range
    (mk_vm_range_make 0 100) (mk_vm_range_make 10 50) true = MK_ESUCCESS.
Proof.
  assert (H1 : range_wf (mk_vm_range_make 0 100)) by at_numerals.
  assert (H2 : range_wf (mk_vm_range_make 10 50)) by at_numerals.
  repeat (split; [assumption |]).
  exact (contains_range_strict_partial _ _ H1 H2 eq_refl).
Defined.

(** X11. An address that a range contains is contained in every range
    that strictly contains that range. *)
Theorem contains_address_in_outer
    (outer inner : mk_vm_range_t) (o a : Z) :
  range_wf outer -> range_wf inner -> is_u64 o -> is_u64 a ->
  mk_vm_range_contains_range outer inner false = MK_ESUCCESS ->
  mk_vm_range_contains_address inner o a = MK_ESUCCESS ->
  mk_vm_range_contains_address outer o a = MK_ESUCCESS.
Proof.
  intros Ho Hi Hoff Ha. range_cases; intros; try discriminate;
    try reflexivity; lia.
Qed.

Lemma contains_address_in_outer_witness :
  range_wf (mk_vm_range_make 0 100) /\
  range_wf (mk_vm_range_make 10 50) /\ is_u64 4 /\ is_u64 20 /\
  mk_vm_range_contains_address (mk_vm_range_make 0 100) 4 20 = MK_ESUCCESS.
Proof.
  assert (H1 : range_wf (mk_vm_range_make 0 100)) by at_numerals.
  assert (H2 : range_wf (mk_vm_range_make 10 50)) by at_numerals.
  assert (H3 : is_u64 4) by at_numerals.
  assert (H4 : is_u64 20) by at_numerals.
  repeat (split; [assumption |]).
  exact (contains_address_in_outer _ _ 4 20 H1 H2 H3 H4 eq_refl eq_refl).
Defined.

(** X12. Two ranges that share an address are accepted by partial mode:
    overlap is never reported as NotFound. *)
Theorem contains_range_partial_overlap
    (outer inner : mk_vm_range_t) (o a : Z) :
  range_wf outer -> range_wf inner -> is_u64 o -> is_u64 a ->
  mk_vm_range_contains_address outer o a = MK_ESUCCESS ->
  mk_vm_range_contains_address inner o a = MK_ESUCCESS ->
  mk_vm_range_contains_range outer inner true = MK_ESUCCESS.
Proof.
  intros Ho Hi Hoff Ha. range_cases; intros; try discriminate;
    try reflexivity; lia.
Qed.

Lemma contains_range_partial_overlap_witness :
  range_wf (mk_vm_range_make 0 10) /\
  range_wf (mk_vm_range_make 5 100) /\ is_u64 0 /\ is_u64 7 /\
  mk_vm_range_contains_range
    (mk_vm_range_make 0 10) (mk_vm_range_make 5 100) true = MK_ESUCCESS.
Proof.
  assert (H1 : range_wf (mk_vm_range_make 0 10)) by at_numerals.
  assert (H2 : range_wf (mk_vm_range_make 5 100)) by at_numerals.
  assert (H3 : is_u64 0) by at_numerals.
  assert (H4 : is_u64 7) by at_numerals.
  repeat (split; [assumption |]).
  exact (contains_range_partial_overlap _ _ 0 7 H1 H2 H3 H4 eq_refl eq_refl).
Defined.

(** X13. Partial mode is symmetric in its two ranges, and on ranges that
    do not overflow it returns NotFound exactly when one range ends
    strictly before the other starts: the test
    [inner.location < outer.location] changes no answer. *)
Theorem contains_range_partial_sym (r1 r2 : mk_vm_range_t) :
  range_wf r1 -> range_wf r2 ->
  mk_vm_range_contains_range r1 r2 true
  = mk_vm_range_contains_range r2 r1 true /\
  (~ range_overflows r1 -> ~ range_overflows r2 ->
   (mk_vm_range_contains_range r1 r2 true = MK_ENOT_FOUND
      <-> location r2 + length r2 < location r1
          \/ location r1 + length r1 < location r2)).
Proof.
  intros H1 H2. unfold range_overflows. split.
  - range_cases; try reflexivity; lia.
  - range_cases; intros; split; intros; try discriminate;
      try reflexivity; lia.
Qed.

Lemma contains_range_partial_sym_witness :
  range_wf (mk_vm_range_make 0 10) /\
  range_wf (mk_vm_range_make 5 100) /\
  mk_vm_range_contains_range
    (mk_vm_range_make 0 10) (mk_vm_range_make 5 100) true
  = mk_vm_range_contains_range
      (mk_vm_range_make 5 100) (mk_vm_range_make 0 10) true.
Proof.
  assert (H1 : range_wf (mk_vm_range_make 0 10)) by at_numerals.
  assert (H2 : range_wf (mk_vm_range_make 5 100)) by at_numerals.
  repeat (split; [assumption |]).
  exact (proj1 (contains_range_partial_sym _ _ H1 H2)).
Defined.

(** X14. Strict mode accepts an empty inner range placed at the very end
    of the outer range, although [mk_vm_range_contains_address] does not
    find that address in the outer range. *)
Theorem contains_range_strict_empty_at_end (outer : mk_vm_range_t) :
  range_wf outer -> ~ range_overflows outer ->
  mk_vm_range_contains_range
    outer (mk_vm_range_make (location outer + length outer) 0) false
  = MK_ESUCCESS /\
  mk_vm_range_contains_address outer 0 (location outer + length outer)
  = MK_ENOT_FOUND.
Proof.
  intros Ho Hfit. unfold range_overflows, range_end, MK_VM_SIZE_MAX in Hfit.
  assert (Hi : range_wf
                 (mk_vm_range_make (location outer + length outer) 0))
    by (unfold range_wf, is_u64 in *; cbn [mk_vm_range_make location length];
        lia).
  assert (H0 : is_u64 0) by at_numerals.
  assert (He : is_u64 (location outer + length outer))
    by (unfold range_wf, is_u64 in *; lia).
  split.
  - rewrite contains_range_cases by assumption.
    unfold range_end, range_wf, is_u64, MK_VM_SIZE_MAX in *.
    cbn [mk_vm_range_make location length].
    split_comparisons; try reflexivity; lia.
  - range_cases; try reflexivity; lia.
Qed.

Lemma contains_range_strict_empty_at_end_witness :
  range_wf (mk_vm_range_make 10 5) /\
  ~ range_overflows (mk_vm_range_make 10 5) /\
  mk_vm_range_contains_range
    (mk_vm_range_make 10 5) (mk_vm_range_make 15 0) false = MK_ESUCCESS /\
  mk_vm_range_contains_address (mk_vm_range_make 10 5) 0 15 = MK_ENOT_FOUND.
Proof.
  assert (H1 : range_wf (mk_vm_range_make 10 5)) by at_numerals.
  assert (H2 : ~ range_overflows (mk_vm_range_make 10 5)) by at_numerals.
  repeat (split; [assumption |]).
  exact (contains_range_strict_empty_at_end _ H1 H2).
Defined.

(** * Error strings *)

(** Clearing a flag that has just been set gives what clearing it in the
    first place gives. *)
Lemma land_lor_lnot (e f : Z) :
  Z.land (Z.lor e f) (Z.lnot f) = Z.land e (Z.lnot f).
Proof.
  apply Z.bits_inj'. intros n Hn.
  rewrite !Z.land_spec, Z.lor_spec, Z.lnot_spec by assumption.
  destruct (Z.testbit e n), (Z.testbit f n); reflexivity.
Qed.

(** Clearing a flag in a value that does not hold it changes nothing. *)
Lemma land_lnot_disjoint (e f : Z) :
  Z.land e f = 0 -> Z.land e (Z.lnot f) = e.
Proof.
  intros Hdis. apply Z.bits_inj'. intros n Hn.
  rewrite Z.land_spec, Z.lnot_spec by assumption.
  assert (Hbit : Z.testbit (Z.land e f) n = false)
    by (rewrite Hdis; apply Z.bits_0).
  rewrite Z.land_spec in Hbit.
  destruct (Z.testbit e n), (Z.testbit f n); try reflexivity; discriminate.
Qed.

(** X15. [mk_error_string] does not see the memory-error flag: an error
    value renders the same with the flag set as without it, whatever the
    numbering of the kinds and the value of the flag. *)
Theorem mk_error_string_ignores_flag
    (code : mk_error_t -> Z) (MK_EMEMORY_ERROR error : Z) :
  mk_error_string code MK_EMEMORY_ERROR (Z.lor error MK_EMEMORY_ERROR)
  = mk_error_string code MK_EMEMORY_ERROR error.
Proof.
  unfold mk_error_string. now rewrite land_lor_lnot.
Qed.

Section error_numbering.
Variable code : mk_error_t -> Z.
Variable MK_EMEMORY_ERROR : Z.
(** Case labels of one [switch] are pairwise distinct. *)
Hypothesis code_inj : forall k1 k2, code k1 = code k2 -> k1 = k2.
(** No kind holds a bit of the flag. *)
Hypothesis code_flag_free : forall k, Z.land (code k) MK_EMEMORY_ERROR = 0.

Lemma mk_error_string_code (k : mk_error_t) :
  mk_error_string code MK_EMEMORY_ERROR (code k) = error_text k.
Proof.
  unfold mk_error_string.
  rewrite land_lnot_disjoint by apply code_flag_free.
  cbv zeta.
  destruct k; cbn [error_text];
    repeat match goal with
           | |- context [code ?a =? code ?a] => rewrite Z.eqb_refl
           | |- context [code ?a =? code ?b] =>
               destruct (Z.eqb_spec (code a) (code b)) as [E | _];
               [apply code_inj in E; discriminate |]
           end; reflexivity.
Qed.

Lemma mk_error_string_flagged (k : mk_error_t) (fault : bool) :
  mk_error_string code MK_EMEMORY_ERROR
    (if fault then Z.lor (code k) MK_EMEMORY_ERROR else code k)
  = error_text k.
Proof.
  destruct fault; [| apply mk_error_string_code].
  unfold mk_error_string. rewrite land_lor_lnot.
  apply mk_error_string_code.
Qed.
End error_numbering.

Lemma error_text_inj (k1 k2 : mk_error_t) :
  error_text k1 = error_text k2 -> k1 = k2.
Proof. destruct k1, k2; cbn [error_text]; congruence. Qed.

Lemma error_text_nonempty (k : mk_error_t) : error_text k <> EmptyString.
Proof. destruct k; discriminate. Qed.

(** X16. When the kinds are numbered apart and none holds a bit of the
    flag, [mk_error_string] gives every kind a text that is not empty,
    and gives two errors the same text only when they are of the same
    kind, with or without the memory-error flag on either. *)
Theorem mk_error_string_distinguishes
    (code : mk_error_t -> Z) (MK_EMEMORY_ERROR : Z)
    (k1 k2 : mk_error_t) (fault1 fault2 : bool) :
  (forall k k', code k = code k' -> k = k') ->
  (forall k, Z.land (code k) MK_EMEMORY_ERROR = 0) ->
  mk_error_string code MK_EMEMORY_ERROR
    (if fault1 then Z.lor (code k1) MK_EMEMORY_ERROR else code k1)
  <> EmptyString /\
  (mk_error_string code MK_EMEMORY_ERROR
     (if fault1 then Z.lor (code k1) MK_EMEMORY_ERROR else code k1)
   = mk_error_string code MK_EMEMORY_ERROR
       (if fault2 then Z.lor (code k2) MK_EMEMORY_ERROR else code k2)
   -> k1 = k2).
Proof.
  intros Hinj Hfree.
  rewrite !(mk_error_string_flagged code MK_EMEMORY_ERROR Hinj Hfree).
  split; [apply error_text_nonempty | apply error_text_inj].
Qed.

Lemma ordinal_code_inj (k k' : mk_error_t) :
  ordinal_code k = ordinal_code k' -> k = k'.
Proof. destruct k, k'; cbn [ordinal_code]; congruence. Qed.

Lemma ordinal_code_flag_free (k : mk_error_t) :
  Z.land (ordinal_code k) 0x80000000 = 0.
Proof. destruct k; reflexivity. Qed.

Lemma mk_error_string_distinguishes_witness :
  mk_error_string ordinal_code 0x80000000
    (Z.lor (ordinal_code MK_EOVERFLOW) 0x80000000) = "OVERFLOW"%string /\
  mk_error_string ordinal_code 0x80000000
    (Z.lor (ordinal_code MK_EOVERFLOW) 0x80000000) <> EmptyString /\
  (mk_error_string ordinal_code 0x80000000
     (Z.lor (ordinal_code MK_EOVERFLOW) 0x80000000)
   = mk_error_string ordinal_code 0x80000000 (ordinal_code MK_EUNDERFLOW)
   -> MK_EOVERFLOW = MK_EUNDERFLOW).
Proof.
  split; [reflexivity |].
  exact (mk_error_string_distinguishes ordinal_code 0x80000000
           MK_EOVERFLOW MK_EUNDERFLOW true false
           ordinal_code_inj ordinal_code_flag_free).
Defined.

(** X17. An error value that, once the flag is cleared, is the number of
    no kind renders as the empty string. *)
Theorem mk_error_string_unknown
    (code : mk_error_t -> Z) (MK_EMEMORY_ERROR error : Z) :
  (forall k, Z.land error (Z.lnot MK_EMEMORY_ERROR) <> code k) ->
  mk_error_string code MK_EMEMORY_ERROR error = EmptyString.
Proof.
  intros Hnone. unfold mk_error_string. cbv zeta.
  repeat match goal with
         | |- context [?e =? code ?k] =>
             destruct (Z.eqb_spec e (code k)) as [E | _];
             [exfalso; exact (Hnone k E) |]
         end.
  reflexivity.
Qed.

Lemma mk_error_string_unknown_witness :
  (forall k, Z.land 0x80000040 (Z.lnot 0x80000000) <> ordinal_code k) /\
  mk_error_string ordinal_code 0x80000000 0x80000040 = EmptyString.
Proof.
  assert (H : forall k,
             Z.land 0x80000040 (Z.lnot 0x80000000) <> ordinal_code k)
    by (intros k; destruct k; discriminate).
  split; [exact H |].
  exact (mk_error_string_unknown ordinal_code 0x80000000 0x80000040 H).
Defined.

(** * Buffer swap on short spans *)

(** X18. On a span of length 0 or 1 the buffer swap reads and writes
    nothing: it returns the pointer and the memory as they are, even for
    a pointer that lies outside the memory. *)
Theorem mk_swap_short_span (mem : memory) (input len : nat) :
  (len <= 1)%nat ->
  swap mk_byteorder_swapped mem input len = Some (input, mem).
Proof.
  intros Hlen. cbn [swap mk_byteorder_swapped]. unfold _mk_swap.
  assert (Hhalf : (len / 2 = 0)%nat)
    by (apply Nat.div_small; lia).
  rewrite Hhalf. cbn [_mk_swap_loop]. rewrite Hhalf. reflexivity.
Qed.

Lemma mk_swap_short_span_witness :
  (1 <= 1)%nat /\
  swap mk_byteorder_swapped ["a"; "b"]%byte 7 1
  = Some (7%nat, ["a"; "b"]%byte).
Proof.
  assert (H : (1 <= 1)%nat) by lia.
  split; [exact H |].
  exact (mk_swap_short_span ["a"; "b"]%byte 7 1 H).
Defined.

(** * Further properties of the type runtime *)

Section descriptor_walks.
Variable vts : gmap Z _mk_type_vtable.
Variable root : ptr.

Lemma load_vtable_Some (d : ptr) (v : _mk_type_vtable) :
  d <> NULL -> vts !! d = Some v -> load_vtable vts d = Some v.
Proof.
  intros Hnn Hv. unfold load_vtable.
  apply Z.eqb_neq in Hnn. now rewrite Hnn.
Qed.

(** Along a chain of [n] links every one of the first [n] ancestors
    exists, and is the start of the rest of the chain. *)
Lemma nth_super_on_chain (n j : nat) (d : ptr) :
  ends_at_root vts root n d = true -> (j <= n)%nat ->
  exists a, nth_super vts j d = Some a /\
            ends_at_root vts root (n - j) a = true.
Proof.
  revert n d. induction j as [| j IH]; intros n d Hd Hj.
  - exists d. split; [reflexivity |]. now rewrite Nat.sub_0_r.
  - destruct n as [| n]; [lia |].
    apply ends_at_root_S in Hd as (Hnn & v & Hv & _ & Hrest).
    cbn [nth_super]. rewrite (load_vtable_Some d v Hnn Hv).
    apply (IH n); [exact Hrest | lia].
Qed.

Lemma nth_super_root (n : nat) (d : ptr) :
  ends_at_root vts root n d = true -> nth_super vts n d = Some root.
Proof.
  intros Hd.
  destruct (nth_super_on_chain n n d Hd) as (a & Ha & Hend); [lia |].
  rewrite Nat.sub_diag in Hend.
  apply ends_at_root_O in Hend as (-> & _). exact Ha.
Qed.

(** The answer of the walk of [mk_type_is_kind_of] on a chain: whether
    the descriptor sought is one of the ancestors, the start included. *)
Lemma kind_of_loop_chain (n fuel : nat) (d type : ptr) :
  ends_at_root vts root n d = true -> (n + 2 <= fuel)%nat ->
  (kind_of_loop vts fuel d type = Some true
   /\ exists j, (j <= n)%nat /\ nth_super vts j d = Some type)
  \/ (kind_of_loop vts fuel d type = Some false
      /\ forall j, (j <= n)%nat -> nth_super vts j d <> Some type).
Proof.
  revert fuel d. induction n as [| n IH]; intros [| fuel] d Hd Hfuel;
    try lia; cbn [kind_of_loop].
  - apply ends_at_root_O in Hd as (-> & Hnn & v & Hv & Hsuper).
    apply Z.eqb_neq in Hnn. rewrite Hnn.
    destruct (Z.eqb_spec root type) as [-> | Hne].
    + left. split; [reflexivity |]. exists 0%nat. split; [lia | reflexivity].
    + right. rewrite Hv, Hsuper.
      destruct fuel as [| fuel]; [lia |]. split; [reflexivity |].
      intros j Hj. replace j with 0%nat by lia. cbn [nth_super]. congruence.
  - apply ends_at_root_S in Hd as (Hnn & v & Hv & _ & Hrest).
    pose proof (load_vtable_Some d v Hnn Hv) as Hload.
    apply Z.eqb_neq in Hnn. rewrite Hnn.
    destruct (Z.eqb_spec d type) as [-> | Hne].
    + left. split; [reflexivity |]. exists 0%nat. split; [lia | reflexivity].
    + rewrite Hv.
      destruct (IH fuel (super v) Hrest) as [[Hyes (j & Hj & Hat)] | [Hno Hnone]];
        [lia | left | right].
      * split; [exact Hyes |]. exists (S j). split; [lia |].
        cbn [nth_super]. now rewrite Hload.
      * split; [exact Hno |]. intros [| j] Hj; cbn [nth_super].
        -- congruence.
        -- rewrite Hload. apply Hnone. lia.
Qed.

(** More fuel does not change an answer of the walk. *)
Lemma kind_of_loop_more_fuel (fuel extra : nat) (d type : ptr) (b : bool) :
  kind_of_loop vts fuel d type = Some b ->
  kind_of_loop vts (fuel + extra) d type = Some b.
Proof.
  revert d. induction fuel as [| fuel IH]; intros d; [discriminate |].
  cbn [kind_of_loop Nat.add].
  destruct (d =? NULL); [trivial |].
  destruct (d =? type); [trivial |].
  destruct (vts !! d) as [v |]; [apply IH | discriminate].
Qed.

(** A descriptor that is its own ancestor cannot start a chain. *)
Lemma chain_start_not_child (n : nat) (p d : ptr) (v : _mk_type_vtable) :
  ends_at_root vts root n p = true ->
  vts !! d = Some v -> super v = p ->
  p <> d /\ forall j, (j < n)%nat -> ends_at_root vts root j d = false.
Proof.
  intros Hp Hv Hsuper.
  assert (Hdeep : forall j, ends_at_root vts root j d = true -> j = S n).
  { intros [| j] Hd.
    - apply ends_at_root_O in Hd as (_ & _ & v' & Hv' & Hnull).
      apply ends_at_root_nonnull in Hp. congruence.
    - apply ends_at_root_S in Hd as (_ & v' & Hv' & _ & Hrest).
      assert (v' = v) by congruence. subst v'. rewrite Hsuper in Hrest.
      f_equal. exact (ends_at_root_unique _ _ _ _ _ Hrest Hp). }
  split.
  - intros ->. apply Hdeep in Hp. lia.
  - intros j Hj. destruct (ends_at_root vts root j d) eqn:Hd; [| reflexivity].
    apply Hdeep in Hd. lia.
Qed.

(** Inside a set of descriptors that [super] never leaves, the walk
    uses up any fuel without an answer. *)
Lemma kind_of_loop_trapped (inside : ptr -> Prop) (type : ptr) :
  (forall d, inside d ->
     d <> NULL /\ d <> type /\
     exists v, vts !! d = Some v /\ inside (super v)) ->
  forall fuel d, inside d -> kind_of_loop vts fuel d type = None.
Proof.
  intros Hclosed fuel. induction fuel as [| fuel IH]; intros d Hd;
    [reflexivity |].
  destruct (Hclosed d Hd) as (Hnn & Hne & v & Hv & Hnext).
  cbn [kind_of_loop]. apply Z.eqb_neq in Hnn, Hne.
  rewrite Hnn, Hne, Hv. apply IH, Hnext.
Qed.

(** The slot walk stops at the first descriptor that sets the slot. *)
Lemma slot_loop_nearest {A : Type} (slot : _mk_type_vtable -> option A)
    (j fuel : nat) (d a : ptr) (va : _mk_type_vtable) (x : A) :
  inherits_slot slot vts j d = true ->
  nth_super vts j d = Some a ->
  load_vtable vts a = Some va -> slot va = Some x ->
  (j < fuel)%nat ->
  slot_loop slot vts fuel d = Some x.
Proof.
  revert fuel d. induction j as [| j IH]; intros [| fuel] d Hinh Hnth Ha Hx Hfuel;
    try lia; cbn [slot_loop].
  - cbn [nth_super] in Hnth. injection Hnth as ->. now rewrite Ha, Hx.
  - cbn [inherits_slot nth_super] in Hinh, Hnth.
    destruct (load_vtable vts d) as [v |]; [| discriminate].
    destruct (slot v); [discriminate |].
    apply IH; [assumption | assumption | assumption | assumption | lia].
Qed.

(** On a chain whose root sets the slot the walk returns a value. *)
Lemma slot_loop_returns {A : Type} (slot : _mk_type_vtable -> option A)
    (n : nat) (d : ptr) (r : _mk_type_vtable) (x0 : A) :
  ends_at_root vts root n d = true ->
  vts !! root = Some r -> slot r = Some x0 ->
  exists x, forall fuel, (n + 1 <= fuel)%nat ->
    slot_loop slot vts fuel d = Some x.
Proof.
  revert d. induction n as [| n IH]; intros d Hd Hr Hx0.
  - apply ends_at_root_O in Hd as (-> & Hnn & _).
    exists x0. intros [| fuel] Hfuel; [lia |]. cbn [slot_loop].
    now rewrite (load_vtable_Some root r Hnn Hr), Hx0.
  - apply ends_at_root_S in Hd as (Hnn & v & Hv & _ & Hrest).
    pose proof (load_vtable_Some d v Hnn Hv) as Hload.
    destruct (slot v) as [x |] eqn:Hslot.
    + exists x. intros [| fuel] Hfuel; [lia |]. cbn [slot_loop].
      now rewrite Hload, Hslot.
    + destruct (IH (super v) Hrest Hr Hx0) as (x & Hx).
      exists x. intros [| fuel] Hfuel; [lia |]. cbn [slot_loop].
      rewrite Hload, Hslot. apply Hx. lia.
Qed.
End descriptor_walks.

(** The root of a chain can be read. *)
Lemma chain_root_loads
    (vts : gmap Z _mk_type_vtable) (root : ptr) (n : nat) (d : ptr)
    (r : _mk_type_vtable) :
  ends_at_root vts root n d = true -> vts !! root = Some r ->
  load_vtable vts root = Some r.
Proof.
  intros Hd Hr.
  destruct (nth_super_on_chain vts root n n d Hd) as (a & _ & Hend); [lia |].
  rewrite Nat.sub_diag in Hend.
  apply ends_at_root_O in Hend as (-> & Hnn & _).
  now apply load_vtable_Some.
Qed.

(** X19. On a finite chain [mk_type_is_kind_of] always answers, and it
    answers true exactly when the descriptor asked for is the tag of the
    handle or one of its ancestors up to the root. *)
Theorem mk_type_is_kind_of_ancestors
    (rt : runtime) (root mk : ptr) (base : _mk_runtime_base_t)
    (n fuel : nat) (type : ptr) :
  objects rt !! mk = Some base ->
  ends_at_root (vtables rt) root n (vtable base) = true ->
  (n + 2 <= fuel)%nat ->
  (mk_type_is_kind_of rt fuel mk type = Some true
     <-> exists j, (j <= n)%nat /\
                   nth_super (vtables rt) j (vtable base) = Some type) /\
  (mk_type_is_kind_of rt fuel mk type = Some true
   \/ mk_type_is_kind_of rt fuel mk type = Some false).
Proof.
  intros Hmk Hchain Hfuel. unfold mk_type_is_kind_of. rewrite Hmk.
  destruct (kind_of_loop_chain _ root n fuel _ type Hchain Hfuel)
    as [[-> Hyes] | [-> Hno]].
  - split; [split; [intros _; exact Hyes | reflexivity] | now left].
  - split; [| now right].
    split; [discriminate |]. intros (j & Hj & Hat). now destruct (Hno j Hj).
Qed.

Lemma mk_type_is_kind_of_ancestors_witness :
  objects sample_runtime !! 0x9100 = Some {| vtable := 0x4000 |} /\
  ends_at_root (vtables sample_runtime) 0x1000 2 0x4000 = true /\
  (2 + 2 <= 4)%nat /\
  mk_type_is_kind_of sample_runtime 4 0x9100 0x2000 = Some true /\
  mk_type_is_kind_of sample_runtime 4 0x9100 0x3000 = Some false.
Proof.
  assert (H1 : objects sample_runtime !! 0x9100 = Some {| vtable := 0x4000 |})
    by reflexivity.
  assert (H2 : ends_at_root (vtables sample_runtime) 0x1000 2 0x4000 = true)
    by reflexivity.
  assert (H3 : (2 + 2 <= 4)%nat) by lia.
  repeat (split; [assumption |]). split.
  - apply (proj1 (mk_type_is_kind_of_ancestors sample_runtime 0x1000 0x9100
                    _ 2 4 0x2000 H1 H2 H3)).
    exists 1%nat. split; [lia | reflexivity].
  - reflexivity.
Defined.

(** X20. No handle on a finite chain is a kind of the NULL descriptor:
    the walk ends when it reads NULL, before comparing it. *)
Theorem mk_type_is_kind_of_null
    (rt : runtime) (root mk : ptr) (base : _mk_runtime_base_t)
    (n fuel : nat) :
  objects rt !! mk = Some base ->
  ends_at_root (vtables rt) root n (vtable base) = true ->
  (n + 2 <= fuel)%nat ->
  mk_type_is_kind_of rt fuel mk NULL = Some false.
Proof.
  intros Hmk Hchain Hfuel. unfold mk_type_is_kind_of. rewrite Hmk.
  destruct (kind_of_loop_chain _ root n fuel _ NULL Hchain Hfuel)
    as [[_ (j & Hj & Hat)] | [Hno _]]; [| exact Hno].
  destruct (nth_super_on_chain _ root n j _ Hchain Hj) as (a & Ha & Hend).
  apply ends_at_root_nonnull in Hend. congruence.
Qed.

Lemma mk_type_is_kind_of_null_witness :
  objects sample_runtime !! 0x9000 = Some {| vtable := 0x2000 |} /\
  ends_at_root (vtables sample_runtime) 0x1000 1 0x2000 = true /\
  (1 + 2 <= 3)%nat /\
  mk_type_is_kind_of sample_runtime 3 0x9000 NULL = Some false.
Proof.
  assert (H1 : objects sample_runtime !! 0x9000 = Some {| vtable := 0x2000 |})
    by reflexivity.
  assert (H2 : ends_at_root (vtables sample_runtime) 0x1000 1 0x2000 = true)
    by reflexivity.
  assert (H3 : (1 + 2 <= 3)%nat) by lia.
  repeat (split; [assumption |]).
  exact (mk_type_is_kind_of_null sample_runtime 0x1000 0x9000 _ 1 3 H1 H2 H3).
Defined.

(** X21. [mk_type_is] answers true exactly when the descriptor is the
    tag of the handle, and whenever it does so for a descriptor other
    than NULL, [mk_type_is_kind_of] answers true as well, at once. *)
Theorem mk_type_is_implies_kind_of
    (rt : runtime) (mk : ptr) (base : _mk_runtime_base_t) (type : ptr)
    (fuel : nat) :
  objects rt !! mk = Some base ->
  (mk_type_is rt mk type = Some true <-> vtable base = type) /\
  (mk_type_is rt mk type = Some true -> type <> NULL ->
   mk_type_is_kind_of rt (S fuel) mk type = Some true).
Proof.
  intros Hmk. unfold mk_type_is, mk_type_is_kind_of. rewrite Hmk.
  destruct (Z.eqb_spec (vtable base) type) as [Heq | Hne].
  - split; [split; [intros _; exact Heq | reflexivity] |].
    intros _ Hnn. rewrite Heq. apply kind_of_loop_self; [exact Hnn | lia].
  - split; [split; [discriminate | contradiction] | discriminate].
Qed.

Lemma mk_type_is_implies_kind_of_witness :
  objects sample_runtime !! 0x9100 = Some {| vtable := 0x4000 |} /\
  mk_type_is sample_runtime 0x9100 0x4000 = Some true /\
  mk_type_is sample_runtime 0x9100 0x2000 = Some false /\
  mk_type_is_kind_of sample_runtime 1 0x9100 0x4000 = Some true.
Proof.
  assert (H1 : objects sample_runtime !! 0x9100 = Some {| vtable := 0x4000 |})
    by reflexivity.
  split; [exact H1 |]. split; [reflexivity |]. split; [reflexivity |].
  apply (proj2 (mk_type_is_implies_kind_of sample_runtime 0x9100 _ 0x4000 0
                  H1));
    [reflexivity | discriminate].
Defined.

(** X22. A handle is a kind of everything that a handle tagged with the
    parent of its class is a kind of, given one more turn of the walk. *)
Theorem mk_type_is_kind_of_inherited
    (rt : runtime) (fuel extra : nat) (mk1 mk2 : ptr)
    (base1 base2 : _mk_runtime_base_t) (v : _mk_type_vtable) (type : ptr) :
  objects rt !! mk1 = Some base1 ->
  objects rt !! mk2 = Some base2 ->
  vtable base1 <> NULL ->
  vtables rt !! vtable base1 = Some v ->
  super v = vtable base2 ->
  mk_type_is_kind_of rt fuel mk2 type = Some true ->
  mk_type_is_kind_of rt (S fuel + extra) mk1 type = Some true.
Proof.
  intros Hmk1 Hmk2 Hnn Hv Hsuper. unfold mk_type_is_kind_of.
  rewrite Hmk1, Hmk2. intros Hparent.
  cbn [Nat.add kind_of_loop]. apply Z.eqb_neq in Hnn. rewrite Hnn.
  destruct (vtable base1 =? type); [reflexivity |].
  rewrite Hv, Hsuper. now apply kind_of_loop_more_fuel.
Qed.

Lemma mk_type_is_kind_of_inherited_witness :
  objects sample_runtime !! 0x9100 = Some {| vtable := 0x4000 |} /\
  objects sample_runtime !! 0x9000 = Some {| vtable := 0x2000 |} /\
  mk_type_is_kind_of sample_runtime 2 0x9000 0x1000 = Some true /\
  mk_type_is_kind_of sample_runtime (3 + 0) 0x9100 0x1000 = Some true.
Proof.
  assert (H1 : objects sample_runtime !! 0x9100 = Some {| vtable := 0x4000 |})
    by reflexivity.
  assert (H2 : objects sample_runtime !! 0x9000 = Some {| vtable := 0x2000 |})
    by reflexivity.
  repeat (split; [assumption |]). split; [reflexivity |].
  eapply (mk_type_is_kind_of_inherited sample_runtime 2 0 0x9100 0x9000
            _ _ _ 0x1000 H1 H2);
    [discriminate | reflexivity | reflexivity | reflexivity].
Defined.

(** X23. A handle is not a kind of a class derived from its own: the
    walk only goes up. *)
Theorem mk_type_is_kind_of_child
    (rt : runtime) (root mk : ptr) (base : _mk_runtime_base_t)
    (n fuel : nat) (d : ptr) (v : _mk_type_vtable) :
  objects rt !! mk = Some base ->
  ends_at_root (vtables rt) root n (vtable base) = true ->
  (n + 2 <= fuel)%nat ->
  vtables rt !! d = Some v -> super v = vtable base ->
  mk_type_is_kind_of rt fuel mk d = Some false.
Proof.
  intros Hmk Hchain Hfuel Hv Hsuper. unfold mk_type_is_kind_of. rewrite Hmk.
  destruct (chain_start_not_child _ root n _ d v Hchain Hv Hsuper)
    as [Hne Hfar].
  now apply (kind_of_loop_absent _ root n).
Qed.

Lemma mk_type_is_kind_of_child_witness :
  objects sample_runtime !! 0x9000 = Some {| vtable := 0x2000 |} /\
  ends_at_root (vtables sample_runtime) 0x1000 1 0x2000 = true /\
  (1 + 2 <= 3)%nat /\
  mk_type_is_kind_of sample_runtime 3 0x9000 0x4000 = Some false.
Proof.
  assert (H1 : objects sample_runtime !! 0x9000 = Some {| vtable := 0x2000 |})
    by reflexivity.
  assert (H2 : ends_at_root (vtables sample_runtime) 0x1000 1 0x2000 = true)
    by reflexivity.
  assert (H3 : (1 + 2 <= 3)%nat) by lia.
  repeat (split; [assumption |]).
  eapply (mk_type_is_kind_of_child sample_runtime 0x1000 0x9000 _ 1 3 0x4000
            _ H1 H2 H3); reflexivity.
Defined.

(** X24. When the descriptors above the tag form a cycle that holds
    neither NULL nor the descriptor asked for, [mk_type_is_kind_of]
    gives no answer, however long the walk is let run. *)
Theorem mk_type_is_kind_of_cycle
    (rt : runtime) (inside : ptr -> Prop) (mk : ptr)
    (base : _mk_runtime_base_t) (type : ptr) :
  objects rt !! mk = Some base ->
  inside (vtable base) ->
  (forall d, inside d ->
     d <> NULL /\ d <> type /\
     exists v, vtables rt !! d = Some v /\ inside (super v)) ->
  forall fuel, mk_type_is_kind_of rt fuel mk type = None.
Proof.
  intros Hmk Hin Hclosed fuel. unfold mk_type_is_kind_of. rewrite Hmk.
  now apply (kind_of_loop_trapped _ inside).
Qed.

Lemma mk_type_is_kind_of_cycle_witness :
  objects looping_runtime !! 0x9000 = Some {| vtable := 0x5000 |} /\
  forall fuel, mk_type_is_kind_of looping_runtime fuel 0x9000 0x1000 = None.
Proof.
  assert (H1 : objects looping_runtime !! 0x9000
               = Some {| vtable := 0x5000 |}) by reflexivity.
  split; [exact H1 |].
  apply (mk_type_is_kind_of_cycle looping_runtime (fun d => d = 0x5000)
           0x9000 _ 0x1000 H1); [reflexivity |].
  intros d ->. split; [discriminate |]. split; [discriminate |].
  eexists. split; reflexivity.
Defined.

(** X25. [mk_type_name] returns the name of the nearest descriptor that
    has one, going from the tag of the handle upwards. *)
Theorem mk_type_name_nearest
    (rt : runtime) (fuel : nat) (mk : ptr) (base : _mk_runtime_base_t)
    (j : nat) (a : ptr) (va : _mk_type_vtable) (s : string) :
  objects rt !! mk = Some base ->
  inherits_slot name (vtables rt) j (vtable base) = true ->
  nth_super (vtables rt) j (vtable base) = Some a ->
  load_vtable (vtables rt) a = Some va ->
  name va = Some s ->
  (j < fuel)%nat ->
  mk_type_name rt fuel mk = Some s.
Proof.
  intros Hmk Hinh Hnth Ha Hs Hfuel. unfold mk_type_name. rewrite Hmk.
  exact (slot_loop_nearest _ name j fuel _ a va s Hinh Hnth Ha Hs Hfuel).
Qed.

Lemma mk_type_name_nearest_witness :
  objects sample_runtime !! 0x9100 = Some {| vtable := 0x4000 |} /\
  inherits_slot name (vtables sample_runtime) 1 0x4000 = true /\
  nth_super (vtables sample_runtime) 1 0x4000 = Some 0x2000 /\
  (1 < 2)%nat /\
  mk_type_name sample_runtime 2 0x9100 = Some "load command"%string.
Proof.
  assert (H1 : objects sample_runtime !! 0x9100 = Some {| vtable := 0x4000 |})
    by reflexivity.
  assert (H2 : inherits_slot name (vtables sample_runtime) 1 0x4000 = true)
    by reflexivity.
  assert (H3 : nth_super (vtables sample_runtime) 1 0x4000 = Some 0x2000)
    by reflexivity.
  assert (H4 : (1 < 2)%nat) by lia.
  repeat (split; [assumption |]).
  eapply (mk_type_name_nearest sample_runtime 2 0x9100 _ 1 0x2000 _ _
            H1 H2 H3); [reflexivity | reflexivity | exact H4].
Defined.

(** X26. On a finite chain whose root has a name, as [_mk_type_class]
    has, [mk_type_name] returns a name, the same for every fuel that
    covers the chain. *)
Theorem mk_type_name_returns
    (rt : runtime) (root mk : ptr) (base : _mk_runtime_base_t) (n : nat)
    (r : _mk_type_vtable) (s0 : string) :
  objects rt !! mk = Some base ->
  ends_at_root (vtables rt) root n (vtable base) = true ->
  vtables rt !! root = Some r -> name r = Some s0 ->
  exists s, forall fuel, (n + 1 <= fuel)%nat ->
    mk_type_name rt fuel mk = Some s.
Proof.
  intros Hmk Hchain Hr Hs0. unfold mk_type_name. rewrite Hmk.
  exact (slot_loop_returns _ root name n _ r s0 Hchain Hr Hs0).
Qed.

Lemma mk_type_name_returns_witness :
  objects sample_runtime !! 0x9100 = Some {| vtable := 0x4000 |} /\
  ends_at_root (vtables sample_runtime) 0x1000 2 0x4000 = true /\
  vtables sample_runtime !! 0x1000 = Some _mk_type_class /\
  name _mk_type_class = Some EmptyString /\
  exists s, forall fuel, (2 + 1 <= fuel)%nat ->
    mk_type_name sample_runtime fuel 0x9100 = Some s.
Proof.
  assert (H1 : objects sample_runtime !! 0x9100 = Some {| vtable := 0x4000 |})
    by reflexivity.
  assert (H2 : ends_at_root (vtables sample_runtime) 0x1000 2 0x4000 = true)
    by reflexivity.
  assert (H3 : vtables sample_runtime !! 0x1000 = Some _mk_type_class)
    by reflexivity.
  assert (H4 : name _mk_type_class = Some EmptyString) by reflexivity.
  repeat (split; [assumption |]).
  exact (mk_type_name_returns sample_runtime 0x1000 0x9100 _ 2 _ _
           H1 H2 H3 H4).
Defined.

(** X27. When no class between the tag and the root [_mk_type_class]
    sets the equality slot, [mk_type_equal] is pointer identity of the
    two handles; a handle is equal to itself. *)
Theorem mk_type_equal_default
    (impls : mk_type_impls) (rt : runtime) (root mk1 mk2 : ptr)
    (base : _mk_runtime_base_t) (n fuel : nat) :
  objects rt !! mk1 = Some base ->
  ends_at_root (vtables rt) root n (vtable base) = true ->
  vtables rt !! root = Some _mk_type_class ->
  inherits_slot equal (vtables rt) n (vtable base) = true ->
  equal_impl impls "__mk_type_equal" = Some __mk_type_equal ->
  (n + 1 <= fuel)%nat ->
  mk_type_equal impls rt fuel mk1 mk2 = Some (mk1 =? mk2) /\
  mk_type_equal impls rt fuel mk1 mk1 = Some true.
Proof.
  intros Hmk Hchain Hroot Hinh Himpl Hfuel. unfold mk_type_equal.
  rewrite Hmk.
  rewrite (slot_loop_nearest _ equal n fuel _ root _mk_type_class
             "__mk_type_equal" Hinh (nth_super_root _ _ _ _ Hchain)
             (chain_root_loads _ _ _ _ _ Hchain Hroot) eq_refl)
    by lia.
  rewrite Himpl. unfold __mk_type_equal. now rewrite Z.eqb_refl.
Qed.

Lemma mk_type_equal_default_witness :
  objects sample_runtime !! 0x9100 = Some {| vtable := 0x4000 |} /\
  ends_at_root (vtables sample_runtime) 0x1000 2 0x4000 = true /\
  vtables sample_runtime !! 0x1000 = Some _mk_type_class /\
  inherits_slot equal (vtables sample_runtime) 2 0x4000 = true /\
  equal_impl core_impls "__mk_type_equal" = Some __mk_type_equal /\
  (2 + 1 <= 3)%nat /\
  mk_type_equal core_impls sample_runtime 3 0x9100 0x9000 = Some false /\
  mk_type_equal core_impls sample_runtime 3 0x9100 0x9100 = Some true.
Proof.
  assert (H1 : objects sample_runtime !! 0x9100 = Some {| vtable := 0x4000 |})
    by reflexivity.
  assert (H2 : ends_at_root (vtables sample_runtime) 0x1000 2 0x4000 = true)
    by reflexivity.
  assert (H3 : vtables sample_runtime !! 0x1000 = Some _mk_type_class)
    by reflexivity.
  assert (H4 : inherits_slot equal (vtables sample_runtime) 2 0x4000 = true)
    by reflexivity.
  assert (H5 : equal_impl core_impls "__mk_type_equal"
               = Some __mk_type_equal) by reflexivity.
  assert (H6 : (2 + 1 <= 3)%nat) by lia.
  repeat (split; [assumption |]).
  exact (mk_type_equal_default core_impls sample_runtime 0x1000 0x9100 0x9000
           _ 2 3 H1 H2 H3 H4 H5 H6).
Defined.

(** X28. When no class between the tag and the root [_mk_type_class]
    sets the context slot, [mk_type_get_context] returns NULL. *)
Theorem mk_type_get_context_default
    (impls : mk_type_impls) (rt : runtime) (root mk : ptr)
    (base : _mk_runtime_base_t) (n fuel : nat) :
  objects rt !! mk = Some base ->
  ends_at_root (vtables rt) root n (vtable base) = true ->
  vtables rt !! root = Some _mk_type_class ->
  inherits_slot get_context (vtables rt) n (vtable base) = true ->
  get_context_impl impls "__mk_type_get_context"
  = Some __mk_type_get_context ->
  (n + 1 <= fuel)%nat ->
  mk_type_get_context impls rt fuel mk = Some NULL.
Proof.
  intros Hmk Hchain Hroot Hinh Himpl Hfuel. unfold mk_type_get_context.
  rewrite Hmk.
  rewrite (slot_loop_nearest _ get_context n fuel _ root _mk_type_class
             "__mk_type_get_context" Hinh (nth_super_root _ _ _ _ Hchain)
             (chain_root_loads _ _ _ _ _ Hchain Hroot) eq_refl)
    by lia.
  now rewrite Himpl.
Qed.

Lemma mk_type_get_context_default_witness :
  objects sample_runtime !! 0x9000 = Some {| vtable := 0x2000 |} /\
  ends_at_root (vtables sample_runtime) 0x1000 1 0x2000 = true /\
  vtables sample_runtime !! 0x1000 = Some _mk_type_class /\
  inherits_slot get_context (vtables sample_runtime) 1 0x2000 = true /\
  get_context_impl core_impls "__mk_type_get_context"
  = Some __mk_type_get_context /\
  (1 + 1 <= 2)%nat /\
  mk_type_get_context core_impls sample_runtime 2 0x9000 = Some NULL.
Proof.
  assert (H1 : objects sample_runtime !! 0x9000 = Some {| vtable := 0x2000 |})
    by reflexivity.
  assert (H2 : ends_at_root (vtables sample_runtime) 0x1000 1 0x2000 = true)
    by reflexivity.
  assert (H3 : vtables sample_runtime !! 0x1000 = Some _mk_type_class)
    by reflexivity.
  assert (H4 : inherits_slot get_context (vtables sample_runtime) 1 0x2000
               = true) by reflexivity.
  assert (H5 : get_context_impl core_impls "__mk_type_get_context"
               = Some __mk_type_get_context) by reflexivity.
  assert (H6 : (1 + 1 <= 2)%nat) by lia.
  repeat (split; [assumption |]).
  exact (mk_type_get_context_default core_impls sample_runtime 0x1000 0x9000
           _ 1 2 H1 H2 H3 H4 H5 H6).
Defined.
